(** * Client-side behaviour of the business website (main.js)

    A shallow embedding of the script's form validation, form submission,
    form persistence and mobile navigation code, and the properties of it
    that the specification states.

    Conventions of the embedding.
    - A JavaScript string is the list of its UTF-16 code units ([list N]).
    - A DOM element is a record of the properties the script reads or writes;
      the elements the script looks up by id live in a finite map keyed by id.
    - A plain JavaScript object used as a dictionary, and its JSON text in
      [localStorage], is the [gmap] of its own entries; reading a key and
      assigning to one go through [Obj.get] and [Obj.set], which take the
      members inherited from [Object.prototype] into account.
    - The one suspension point of [submitForm] (the awaited [fetch]) splits
      the function in two: the part run before the request is issued and the
      part run when the request settles. *)

From Stdlib Require Import NArith ZArith List Ascii String Bool Lia.
From stdpp Require Import base option list gmap.

Local Open Scope N_scope.
#[local] Set Warnings "-clear-no-such-hyp".

(* ===================================================================== *)
(** * Part I: the embedding *)
(* ===================================================================== *)

(** ** JavaScript strings *)

Module Str.

Abbreviation jsstring := (list N).

(** A string literal of the script, as code units. *)
Definition js (s : string) : jsstring :=
  map N_of_ascii (list_ascii_of_string s).

(** ECMAScript WhiteSpace and LineTerminator code points: the characters
    removed by [String.prototype.trim] and matched by [\s]. *)
Definition is_whitespace (c : N) : bool :=
  (c =? 9) || (c =? 10) || (c =? 11) || (c =? 12) || (c =? 13) ||
  (c =? 32) || (c =? 160) || (c =? 5760) ||
  ((8192 <=? c) && (c <=? 8202)) ||
  (c =? 8232) || (c =? 8233) || (c =? 8239) || (c =? 8287) ||
  (c =? 12288) || (c =? 65279).

Fixpoint trimStart (s : jsstring) : jsstring :=
  match s with
  | [] => []
  | c :: s' => if is_whitespace c then trimStart s' else s
  end.

Definition trimEnd (s : jsstring) : jsstring := rev (trimStart (rev s)).

(** [s.trim()] *)
Definition trim (s : jsstring) : jsstring := trimEnd (trimStart s).

(** ToBoolean on a string: the empty string is the only falsy one. *)
Definition truthy (s : jsstring) : bool :=
  match s with [] => false | _ :: _ => true end.

(** [s.length] *)
Definition len (s : jsstring) : N := N.of_nat (length s).

Definition eqb (a b : jsstring) : bool := bool_decide (a = b).

End Str.

(** ** Regular expressions *)

Module RegExp.
Import Str.

Inductive regex : Type :=
| Void
| Eps
| Class (p : N -> bool)
| Cat (r1 r2 : regex)
| Alt (r1 r2 : regex)
| Star (r : regex).

(** [r+] *)
Definition Plus (r : regex) : regex := Cat r (Star r).

(** A literal character. *)
Definition Chr (c : N) : regex := Class (N.eqb c).

Fixpoint nullable (r : regex) : bool :=
  match r with
  | Void => false
  | Eps => true
  | Class _ => false
  | Cat r1 r2 => nullable r1 && nullable r2
  | Alt r1 r2 => nullable r1 || nullable r2
  | Star _ => true
  end.

Fixpoint deriv (c : N) (r : regex) : regex :=
  match r with
  | Void => Void
  | Eps => Void
  | Class p => if p c then Eps else Void
  | Cat r1 r2 =>
      if nullable r1
      then Alt (Cat (deriv c r1) r2) (deriv c r2)
      else Cat (deriv c r1) r2
  | Alt r1 r2 => Alt (deriv c r1) (deriv c r2)
  | Star r0 => Cat (deriv c r0) (Star r0)
  end.

Fixpoint matches (r : regex) (s : jsstring) : bool :=
  match s with
  | [] => nullable r
  | c :: s' => matches (deriv c r) s'
  end.

(** [/^r$/.test(s)]: with both anchors and no flags the pattern has to
    match the whole string. *)
Definition test (r : regex) (s : jsstring) : bool := matches r s.

(** The strings a pattern denotes. *)
Inductive lang : regex -> jsstring -> Prop :=
| lang_eps : lang Eps []
| lang_class p c : p c = true -> lang (Class p) [c]
| lang_cat r1 r2 s1 s2 :
    lang r1 s1 -> lang r2 s2 -> lang (Cat r1 r2) (s1 ++ s2)
| lang_alt_l r1 r2 s : lang r1 s -> lang (Alt r1 r2) s
| lang_alt_r r1 r2 s : lang r2 s -> lang (Alt r1 r2) s
| lang_star_nil r : lang (Star r) []
| lang_star_app r s1 s2 :
    lang r s1 -> lang (Star r) s2 -> lang (Star r) (s1 ++ s2).

(** [[^\s@]] *)
Definition not_space_or_at (c : N) : bool :=
  negb (is_whitespace c || (c =? 64)).

(** [/^[^\s@]+@[^\s@]+\.[^\s@]+$/] (main.js line 161) *)
Definition emailRegex : regex :=
  Cat (Plus (Class not_space_or_at))
    (Cat (Chr 64)
       (Cat (Plus (Class not_space_or_at))
          (Cat (Chr 46)
             (Plus (Class not_space_or_at))))).

End RegExp.

(** ** The contact form: elements and page state *)

Module Dom.
Import Str.

(** The tracked controls are the elements matching
    ['.form-input, .form-textarea']: an [<input>] with its [type], or a
    [<textarea>]. *)
Inductive control : Type :=
| Input (type : jsstring)
| Textarea.

(** [value] is what the control's [value] property reads; a value read
    from a control and assigned to a control of the same kind is kept as it
    is. *)
Record field : Type := Field {
  name : jsstring;            (* the name attribute *)
  kind : control;
  required : bool;            (* hasAttribute('required') *)
  defaultValue : jsstring;    (* the value form.reset() goes back to *)
  value : jsstring;
  inputError : bool           (* class form-input--error *)
}.

(** [field.type]; a textarea's type is always ["textarea"]. *)
Definition type (f : field) : jsstring :=
  match kind f with
  | Input t => t
  | Textarea => js "textarea"
  end.

(** [field.tagName] *)
Definition tagName (f : field) : jsstring :=
  match kind f with
  | Input _ => js "INPUT"
  | Textarea => js "TEXTAREA"
  end.

Definition set_value (f : field) (v : jsstring) : field :=
  {| name := name f; kind := kind f; required := required f;
     defaultValue := defaultValue f; value := v;
     inputError := inputError f |}.

Definition set_inputError (f : field) (b : bool) : field :=
  {| name := name f; kind := kind f; required := required f;
     defaultValue := defaultValue f; value := value f;
     inputError := b |}.

(** A per-field error region, found by id [name + '-error']. *)
Record errorElement : Type := ErrorElement {
  textContent : jsstring;
  errorShow : bool            (* class form-error--show *)
}.

(** The regions [#form-success] and [#form-error]. *)
Record messageElement : Type := MessageElement {
  messageText : jsstring;
  messageShow : bool   (* form-success--show / form-error-general--show *)
}.

(** The item stored under [STORAGE_KEY]: JSON text, represented by the
    object it parses to, or non-empty text that [JSON.parse] rejects. Only
    [saveFormData] writes the item, so a parseable item is an object with
    string values. *)
Inductive item : Type :=
| Json (formData : gmap jsstring jsstring)
| Malformed.

(** [errorElements] holds the elements that [getElementById] finds, the two
    message regions apart, which are [formSuccess] and [formError]. *)
Record page : Type := Page {
  formInputs : list field;
  errorElements : gmap jsstring errorElement;
  formAction : jsstring;      (* contactForm.action *)
  formMethod : jsstring;      (* the method declared on the form *)
  submitText : jsstring;      (* submitButton.textContent *)
  submitDisabled : bool;      (* submitButton.disabled *)
  formSuccess : messageElement;
  formError : messageElement;
  scrolledIntoView : option jsstring;
  localStorage : option item; (* localStorage.getItem(STORAGE_KEY) *)
  console : list (jsstring * jsstring)
}.

Definition set_fields (p : page) (fs : list field)
    (es : gmap jsstring errorElement) : page :=
  {| formInputs := fs; errorElements := es;
     formAction := formAction p; formMethod := formMethod p;
     submitText := submitText p; submitDisabled := submitDisabled p;
     formSuccess := formSuccess p; formError := formError p;
     scrolledIntoView := scrolledIntoView p;
     localStorage := localStorage p; console := console p |}.

Definition set_submit (p : page) (text : jsstring) (disabled : bool) : page :=
  {| formInputs := formInputs p; errorElements := errorElements p;
     formAction := formAction p; formMethod := formMethod p;
     submitText := text; submitDisabled := disabled;
     formSuccess := formSuccess p; formError := formError p;
     scrolledIntoView := scrolledIntoView p;
     localStorage := localStorage p; console := console p |}.

Definition set_messages (p : page) (s e : messageElement)
    (scrolled : option jsstring) : page :=
  {| formInputs := formInputs p; errorElements := errorElements p;
     formAction := formAction p; formMethod := formMethod p;
     submitText := submitText p; submitDisabled := submitDisabled p;
     formSuccess := s; formError := e;
     scrolledIntoView := scrolled;
     localStorage := localStorage p; console := console p |}.

Definition set_localStorage (p : page) (st : option item) : page :=
  {| formInputs := formInputs p; errorElements := errorElements p;
     formAction := formAction p; formMethod := formMethod p;
     submitText := submitText p; submitDisabled := submitDisabled p;
     formSuccess := formSuccess p; formError := formError p;
     scrolledIntoView := scrolledIntoView p;
     localStorage := st; console := console p |}.

Definition set_console (p : page) (log : list (jsstring * jsstring)) : page :=
  {| formInputs := formInputs p; errorElements := errorElements p;
     formAction := formAction p; formMethod := formMethod p;
     submitText := submitText p; submitDisabled := submitDisabled p;
     formSuccess := formSuccess p; formError := formError p;
     scrolledIntoView := scrolledIntoView p;
     localStorage := localStorage p; console := log |}.

End Dom.

(** ** Form validation (main.js lines 147-202) *)

Module Validator.
Import Str RegExp Dom.

Definition errorId (f : field) : jsstring := name f ++ js "-error".

(** [showFieldError(field, message)] *)
Definition showFieldError (f : field) (message : jsstring)
    (es : gmap jsstring errorElement) : field * gmap jsstring errorElement :=
  let es' :=
    match es !! errorId f with
    | Some _ =>
        <[errorId f :=
            {| textContent := message; errorShow := truthy message |}]> es
    | None => es
    end in
  (set_inputError f (truthy message), es').

(** [clearFieldError(field)] *)
Definition clearFieldError (f : field) (es : gmap jsstring errorElement)
    : field * gmap jsstring errorElement :=
  showFieldError f [] es.

(** The rule evaluation of [validateField] (lines 148-172): the final
    [isValid], and the message handed to [showFieldError], which is
    [isValid ? '' : errorMessage]. *)
Definition fieldRules (f : field) : bool * jsstring :=
  let value := trim (Dom.value f) in
  let '(isValid, errorMessage) := (true, @nil N) in
  let '(isValid, errorMessage) :=
    if required f && negb (truthy value)
    then (false, js "This field is required.")
    else (isValid, errorMessage) in
  let '(isValid, errorMessage) :=
    if Str.eqb (type f) (js "email") && truthy value
    then
      if negb (RegExp.test emailRegex value)
      then (false, js "Please enter a valid email address.")
      else (isValid, errorMessage)
    else (isValid, errorMessage) in
  let '(isValid, errorMessage) :=
    if Str.eqb (tagName f) (js "TEXTAREA") && truthy value
       && (len value <? 10)
    then (false, js "Please provide more details (at least 10 characters).")
    else (isValid, errorMessage) in
  (isValid, if isValid then [] else errorMessage).

(** [validateField(field)]: the updated field and error regions, and the
    returned [isValid]. *)
Definition validateField (f : field) (es : gmap jsstring errorElement)
    : field * gmap jsstring errorElement * bool :=
  let '(isValid, message) := fieldRules f in
  (showFieldError f message es, isValid).

(** The [forEach] of [validateForm], from a given [isFormValid]. *)
Fixpoint validateFormLoop (inputs : list field)
    (es : gmap jsstring errorElement) (isFormValid : bool)
    : list field * gmap jsstring errorElement * bool :=
  match inputs with
  | [] => ([], es, isFormValid)
  | input :: rest =>
      let '(input', es', ok) := validateField input es in
      let isFormValid' := if negb ok then false else isFormValid in
      let '(rest', es'', result) := validateFormLoop rest es' isFormValid' in
      (input' :: rest', es'', result)
  end.

(** The error regions the [forEach] of [validateForm] leaves. *)
Definition regionsAfter (fs : list field) (es : gmap jsstring errorElement)
    : gmap jsstring errorElement :=
  fold_left (fun es0 f => (validateField f es0).1.2) fs es.

(** [validateForm()] *)
Definition validateForm (inputs : list field)
    (es : gmap jsstring errorElement)
    : list field * gmap jsstring errorElement * bool :=
  validateFormLoop inputs es true.

End Validator.

(** ** Plain JavaScript objects *)

Module Obj.
Import Str.

(** The functions every plain object inherits from [Object.prototype],
    [constructor] apart. *)
Definition prototypeFunctions : list jsstring :=
  [js "hasOwnProperty"; js "isPrototypeOf"; js "propertyIsEnumerable";
   js "toLocaleString"; js "toString"; js "valueOf";
   js "__defineGetter__"; js "__defineSetter__";
   js "__lookupGetter__"; js "__lookupSetter__"].

(** What a plain object inherits under a key, as the string it converts
    to: [__proto__] reads as the prototype object itself, [constructor] as
    the function [Object], the others as native functions of their own
    name. *)
Definition inherited (k : jsstring) : option jsstring :=
  if decide (k = js "__proto__") then Some (js "[object Object]")
  else if decide (k = js "constructor")
  then Some (js "function Object() { [native code] }")
  else if decide (k ∈ prototypeFunctions)
  then Some (js "function " ++ k ++ js "() { [native code] }")
  else None.

(** What reading a key of an object with string entries gives: an own
    string, a member of the prototype, or [undefined]. *)
Inductive jsvalue : Type :=
| Undefined
| Str (s : jsstring)
| Native (text : jsstring).

(** [o[k]]: own entries first, then the prototype. *)
Definition get (o : gmap jsstring jsstring) (k : jsstring) : jsvalue :=
  match o !! k with
  | Some s => Str s
  | None =>
      match inherited k with
      | Some text => Native text
      | None => Undefined
      end
  end.

(** [o[k] = v] for a string [v]: unless the object has an own entry of
    that name, assigning to [__proto__] runs the prototype's setter, which
    ignores a string and adds no entry. *)
Definition set (o : gmap jsstring jsstring) (k v : jsstring)
    : gmap jsstring jsstring :=
  if decide (k = js "__proto__")
  then match o !! k with
       | Some _ => <[k := v]> o
       | None => o
       end
  else <[k := v]> o.

(** ToBoolean: objects and functions are truthy. *)
Definition toBoolean (x : jsvalue) : bool :=
  match x with
  | Undefined => false
  | Str s => truthy s
  | Native _ => true
  end.

(** ToString, as the assignment to [input.value] applies it. *)
Definition toString (x : jsvalue) : jsstring :=
  match x with
  | Undefined => js "undefined"
  | Str s => s
  | Native text => text
  end.

End Obj.

(** ** Form persistence (main.js lines 267-313) *)

Module Persistence.
Import Str Dom.

(** One turn of the [forEach] of [saveFormData]. *)
Definition collectStep (formData : gmap jsstring jsstring) (input : field)
    : gmap jsstring jsstring :=
  if truthy (trim (value input))
  then Obj.set formData (name input) (value input)
  else formData.

(** The object built by the [forEach] of [saveFormData]. *)
Definition collect (inputs : list field) : gmap jsstring jsstring :=
  fold_left collectStep inputs ∅.

(** [saveFormData()]: the stored item afterwards. *)
Definition saveFormData (inputs : list field) (storage : option item)
    : option item :=
  let formData := collect inputs in
  if (0 <? size formData)%nat then Some (Json formData) else storage.

(** The assignment in the [forEach] of [loadFormData]. *)
Definition restore (formData : gmap jsstring jsstring) (input : field)
    : field :=
  let stored := Obj.get formData (name input) in
  if Obj.toBoolean stored
  then set_value input (Obj.toString stored)
  else input.

(** [loadFormData()]: the fields afterwards, and what was logged. *)
Definition loadFormData (storage : option item) (inputs : list field)
    : list field * list (jsstring * jsstring) :=
  match storage with
  | None => (inputs, [])
  | Some (Json formData) => (restore formData <$> inputs, [])
  | Some Malformed =>
      (inputs, [(js "Error loading form data:", js "SyntaxError")])
  end.

(** [clearFormStorage()] *)
Definition clearFormStorage (storage : option item) : option item := None.

End Persistence.

(** ** Form submission (main.js lines 204-262) *)

Module Submitter.
Import Str Dom.

(** What [fetch] can be given as a body, and the content type the
    platform derives from it. *)
Inductive bodyInit : Type :=
| FormData (entries : list (jsstring * jsstring))
| URLSearchParams (entries : list (jsstring * jsstring))
| Text (s : jsstring).

Definition contentType (b : bodyInit) : jsstring :=
  match b with
  | FormData _ => js "multipart/form-data"
  | URLSearchParams _ => js "application/x-www-form-urlencoded"
  | Text _ => js "text/plain"
  end.

Record request : Type := Request {
  url : jsstring;
  method : jsstring;
  body : bodyInit;
  headers : list (jsstring * jsstring)
}.

(** [new FormData(contactForm)]: one entry per named control. *)
Definition formEntries (inputs : list field) : list (jsstring * jsstring) :=
  map (fun f => (name f, value f))
      (filter (fun f => truthy (name f) = true) inputs).

(** How the awaited [fetch] settles. *)
Inductive settled : Type :=
| Fulfilled (status : N)
| Rejected (reason : jsstring).

(** [response.ok] *)
Definition ok (status : N) : bool := (200 <=? status) && (status <=? 299).

Inductive messageType : Type := success | error.

(** [showFormMessage(type, message)] *)
Definition showFormMessage (type : messageType) (message : jsstring)
    (p : page) : page :=
  let successElement :=
    {| messageText := messageText (formSuccess p); messageShow := false |} in
  let errorElement :=
    {| messageText := messageText (formError p); messageShow := false |} in
  match type with
  | success =>
      set_messages p
        {| messageText := message; messageShow := true |}
        errorElement
        (Some (js "form-success"))
  | error =>
      set_messages p
        successElement
        {| messageText := message; messageShow := true |}
        (Some (js "form-error"))
  end.

(** [contactForm.reset()] *)
Definition reset (p : page) : page :=
  set_fields p ((fun f => set_value f (defaultValue f)) <$> formInputs p)
    (errorElements p).

(** [submitForm] up to the [await]: the page while the request is in
    flight, the request issued, and the saved [originalText]. *)
Definition submitFormStart (p : page) : page * request * jsstring :=
  let formData := FormData (formEntries (formInputs p)) in
  let originalText := submitText p in
  let p1 := set_submit p (js "Sending...") true in
  (p1,
   {| url := formAction p;
      method := js "POST";
      body := formData;
      headers := [(js "Accept", js "application/json")] |},
   originalText).

(** The [try] block after the [await]: the page, and the error thrown
    if any. *)
Definition tryBlock (response : settled) (p : page)
    : page * option jsstring :=
  match response with
  | Rejected reason => (p, Some reason)
  | Fulfilled status =>
      if ok status
      then
        let p1 :=
          showFormMessage success
            (js "Thank you! We'll get back to you within 24 hours.") p in
        let p2 := reset p1 in
        let p3 :=
          set_localStorage p2
            (Persistence.clearFormStorage (localStorage p2)) in
        (p3, None)
      else (p, Some (js "Form submission failed"))
  end.

Definition catchBlock (err : jsstring) (p : page) : page :=
  let p1 :=
    set_console p (console p ++ [(js "Form submission error:", err)]) in
  showFormMessage error
    (js "Something went wrong. Please try again or email us directly.") p1.

Definition finallyBlock (originalText : jsstring) (p : page) : page :=
  set_submit p originalText false.

(** [submitForm] from the point where the request settles. *)
Definition submitFormSettle (originalText : jsstring) (response : settled)
    (p : page) : page :=
  let '(p1, thrown) := tryBlock response p in
  let p2 :=
    match thrown with
    | Some err => catchBlock err p1
    | None => p1
    end in
  finallyBlock originalText p2.

(** A whole run of [submitForm] with no other handler in between. *)
Definition submitForm (response : settled) (p : page) : page :=
  let '(p1, _, originalText) := submitFormStart p in
  submitFormSettle originalText response p1.

End Submitter.

(** ** The listeners on the tracked fields (lines 127-135 and 274-276) *)

Module Handlers.
Import Str Dom.

Inductive fieldEvent : Type :=
| Blur (i : nat)
| InputEvent (i : nat) (typed : jsstring).

(** [blur] runs [validateField]; [input] follows the edit of the value
    and runs [clearFieldError], then [saveFormData]. *)
Definition handle (e : fieldEvent) (p : page) : page :=
  match e with
  | Blur i =>
      match formInputs p !! i with
      | Some f =>
          let '(f', es', _) := Validator.validateField f (errorElements p) in
          set_fields p (<[i := f']> (formInputs p)) es'
      | None => p
      end
  | InputEvent i typed =>
      match formInputs p !! i with
      | Some f =>
          let '(f', es') :=
            Validator.clearFieldError (set_value f typed) (errorElements p) in
          let p1 := set_fields p (<[i := f']> (formInputs p)) es' in
          set_localStorage p1
            (Persistence.saveFormData (formInputs p1) (localStorage p1))
      | None => p
      end
  end.

Definition handleAll (es : list fieldEvent) (p : page) : page :=
  fold_left (fun q e => handle e q) es p.

End Handlers.

(** ** Mobile navigation (main.js lines 31-118) *)

Module Nav.
Import Str.

Record nav : Type := NavState {
  menuOpen : bool;            (* class nav__menu--open on the menu *)
  ariaExpanded : jsstring;    (* aria-expanded on the toggle *)
  line0Transform : jsstring;
  line1Opacity : jsstring;
  line2Transform : jsstring;
  scrollTop : Z;              (* where window.scrollTo last went *)
  focused : option jsstring   (* id of the element focus() was called on *)
}.

(** [openMobileNav()] *)
Definition openMobileNav (s : nav) : nav :=
  {| menuOpen := true;
     ariaExpanded := js "true";
     line0Transform := js "rotate(45deg) translate(5px, 5px)";
     line1Opacity := js "0";
     line2Transform := js "rotate(-45deg) translate(7px, -6px)";
     scrollTop := scrollTop s; focused := focused s |}.

(** [closeMobileNav()] *)
Definition closeMobileNav (s : nav) : nav :=
  {| menuOpen := false;
     ariaExpanded := js "false";
     line0Transform := [];
     line1Opacity := [];
     line2Transform := [];
     scrollTop := scrollTop s; focused := focused s |}.

(** The element an in-page link points to. *)
Record target : Type := Target {
  targetId : jsstring;
  offsetTop : Z
}.

(** Where a click lands. An in-page link ([a[href^="#"]]) lies outside
    the toggle; its target element may be missing. *)
Inductive clicked : Type :=
| OnToggle
| OnAnchor (inMenu : bool) (headerHeight : Z) (found : option target)
| Elsewhere (inMenu : bool).

Inductive event : Type :=
| Click (spot : clicked)
| KeyDown (key : jsstring)
| Resize (innerWidth : Z).

(** The click listener on the toggle (lines 66-74). *)
Definition onToggleClick (s : nav) : nav :=
  let isOpen := menuOpen s in
  if isOpen then closeMobileNav s else openMobileNav s.

(** The click listener on [document] (lines 77-81). *)
Definition onDocumentClick (inToggle inMenu : bool) (s : nav) : nav :=
  if negb inToggle && negb inMenu then closeMobileNav s else s.

(** The keydown listener (lines 84-88). *)
Definition onKeyDown (key : jsstring) (s : nav) : nav :=
  if Str.eqb key (js "Escape") then closeMobileNav s else s.

(** The resize listener (lines 91-95). *)
Definition onResize (innerWidth : Z) (s : nav) : nav :=
  if (768 <? innerWidth)%Z then closeMobileNav s else s.

(** The click listener on an in-page link (lines 35-56). *)
Definition onAnchorClick (headerHeight : Z) (found : option target)
    (s : nav) : nav :=
  match found with
  | Some targetElement =>
      let offset := (offsetTop targetElement - headerHeight - 20)%Z in
      let s1 :=
        {| menuOpen := menuOpen s; ariaExpanded := ariaExpanded s;
           line0Transform := line0Transform s;
           line1Opacity := line1Opacity s;
           line2Transform := line2Transform s;
           scrollTop := offset; focused := focused s |} in
      let s2 := closeMobileNav s1 in
      {| menuOpen := menuOpen s2; ariaExpanded := ariaExpanded s2;
         line0Transform := line0Transform s2;
         line1Opacity := line1Opacity s2;
         line2Transform := line2Transform s2;
         scrollTop := scrollTop s2;
         focused := Some (targetId targetElement) |}
  | None => s
  end.

(** Dispatch of one event to the registered listeners: a click runs the
    listener on the element hit and then, bubbling, the one on
    [document]. *)
Definition step (e : event) (s : nav) : nav :=
  match e with
  | Click OnToggle => onDocumentClick true false (onToggleClick s)
  | Click (OnAnchor inMenu headerHeight found) =>
      onDocumentClick false inMenu (onAnchorClick headerHeight found s)
  | Click (Elsewhere inMenu) => onDocumentClick false inMenu s
  | KeyDown key => onKeyDown key s
  | Resize innerWidth => onResize innerWidth s
  end.

Definition run (es : list event) (s : nav) : nav :=
  fold_left (fun q e => step e q) es s.

(** The listeners that [initMobileNavigation] itself registers. *)
Definition ownListener (e : event) : bool :=
  match e with
  | Click (OnAnchor _ _ _) => false
  | _ => true
  end.

(** Modelled from the spec: the page markup, which fixes the state the
    menu starts in, is not part of the script; the specification gives
    the initial state as closed. *)
Definition initial : nav :=
  {| menuOpen := false;
     ariaExpanded := js "false";
     line0Transform := [];
     line1Opacity := [];
     line2Transform := [];
     scrollTop := 0%Z;
     focused := None |}.

Inductive menuState : Type := closed | open.

Definition stateOf (s : nav) : menuState :=
  if menuOpen s then open else closed.

(** The attribute says what the menu is. *)
Definition agrees (s : nav) : Prop :=
  ariaExpanded s = if menuOpen s then js "true" else js "false".

End Nav.

(** ** The specification's vocabulary *)

Module Spec.
Import Str Dom.

(** A character that is neither whitespace nor ["@"]. *)
Definition plainChar (c : N) : Prop := is_whitespace c = false /\ c <> 64.

(** The [localpart@domain.tld] shape: a local part, one ["@"], and a
    domain with a dot in it, none of them empty and none containing
    whitespace or a further ["@"]. *)
Definition emailShape (s : jsstring) : Prop :=
  exists localpart domain tld,
    s = localpart ++ [64] ++ domain ++ [46] ++ tld /\
    localpart <> [] /\ domain <> [] /\ tld <> [] /\
    Forall plainChar localpart /\ Forall plainChar domain /\
    Forall plainChar tld.

Definition requiredMessage : jsstring := js "This field is required.".
Definition emailMessage : jsstring :=
  js "Please enter a valid email address.".
Definition lengthMessage : jsstring :=
  js "Please provide more details (at least 10 characters).".

(** The three rules of the validator, as the specification words them. *)
Definition requiredFails (f : field) : Prop :=
  required f = true /\ trim (value f) = [].

Definition emailFails (f : field) : Prop :=
  kind f = Input (js "email") /\ trim (value f) <> [] /\
  ~ emailShape (trim (value f)).

Definition lengthFails (f : field) : Prop :=
  kind f = Textarea /\ trim (value f) <> [] /\
  (length (trim (value f)) < 10)%nat.

Definition failureMessage : jsstring :=
  js "Something went wrong. Please try again or email us directly.".

(** The network call rejects, or answers with a status outside 200-299. *)
Definition fails (response : Submitter.settled) : Prop :=
  match response with
  | Submitter.Rejected _ => True
  | Submitter.Fulfilled status => ~ (200 <= status <= 299)
  end.

Definition flip (m : Nav.menuState) : Nav.menuState :=
  match m with
  | Nav.closed => Nav.open
  | Nav.open => Nav.closed
  end.

(** The machine with the four triggers and no other transition: a toggle
    click, a click outside both the toggle and the menu, the escape key,
    a resize above 768. *)
Definition fourTriggers (e : Nav.event) (m : Nav.menuState)
    : Nav.menuState :=
  match e with
  | Nav.Click Nav.OnToggle => flip m
  | Nav.Click (Nav.OnAnchor false _ _) => Nav.closed
  | Nav.Click (Nav.Elsewhere false) => Nav.closed
  | Nav.Click _ => m
  | Nav.KeyDown key => if decide (key = js "Escape") then Nav.closed else m
  | Nav.Resize innerWidth =>
      if decide (768 < innerWidth)%Z then Nav.closed else m
  end.

(** The same machine with a fifth trigger: a click on an in-page link
    whose target exists. *)
Definition fiveTriggers (e : Nav.event) (m : Nav.menuState)
    : Nav.menuState :=
  match e with
  | Nav.Click (Nav.OnAnchor _ _ (Some _)) => Nav.closed
  | _ => fourTriggers e m
  end.

(** A value that is empty or whitespace-only. *)
Definition blank (v : jsstring) : Prop := trim v = [].

(** "The persisted snapshot never contains an entry for a field whose
    current value is empty or whitespace-only." *)
Definition omitsBlankFields (fs : list field) (storage : option item)
    : Prop :=
  forall f m, f ∈ fs -> blank (value f) -> storage = Some (Json m) ->
              m !! name f = None.

End Spec.

(** ** A contact form to evaluate on *)

Module Samples.
Import Str Dom.

Definition nameField (v : jsstring) : field :=
  {| name := js "name"; kind := Input (js "text"); required := true;
     defaultValue := []; value := v; inputError := false |}.

Definition emailField (v : jsstring) : field :=
  {| name := js "email"; kind := Input (js "email"); required := true;
     defaultValue := []; value := v; inputError := false |}.

Definition messageField (v : jsstring) : field :=
  {| name := js "message"; kind := Textarea; required := true;
     defaultValue := []; value := v; inputError := false |}.

(** A text control that the markup names [__proto__]. *)
Definition protoField (v : jsstring) : field :=
  {| name := js "__proto__"; kind := Input (js "text"); required := false;
     defaultValue := []; value := v; inputError := false |}.

(** A text control that the markup names [constructor]. *)
Definition constructorField (v : jsstring) : field :=
  {| name := js "constructor"; kind := Input (js "text"); required := false;
     defaultValue := []; value := v; inputError := false |}.

(** The three fields, with the given values. *)
Definition contactFields (n e m : jsstring) : list field :=
  [nameField n; emailField e; messageField m].

Definition blankRegion : errorElement :=
  {| textContent := []; errorShow := false |}.

Definition contactRegions : gmap jsstring errorElement :=
  <[js "name-error" := blankRegion]>
    (<[js "email-error" := blankRegion]>
       (<[js "message-error" := blankRegion]> ∅)).

(** The page, with the method its form declares. *)
Definition contactPage (declared : jsstring) (n e m : jsstring)
    (storage : option item) : page :=
  {| formInputs := contactFields n e m;
     errorElements := contactRegions;
     formAction := js "https://formspree.io/f/contact";
     formMethod := declared;
     submitText := js "Send Message";
     submitDisabled := false;
     formSuccess := {| messageText := []; messageShow := false |};
     formError := {| messageText := []; messageShow := false |};
     scrolledIntoView := None;
     localStorage := storage;
     console := [] |}.

End Samples.

(** ** The submit listener (main.js lines 138-144) *)

Module FormHandling.
Import Str Dom.


End FormHandling.

(** ** Scroll-triggered animations (main.js lines 318-346) *)

Module Animations.

(** Elements are told apart by a number. [observed] is what the
    IntersectionObserver watches (nothing when no observer was made),
    [fadeIn] the elements carrying the class [fade-in]. *)
Record animator : Type := Animator {
  observed : gset nat;
  fadeIn : gset nat
}.

(** One record handed to the observer's callback. *)
Record entry : Type := Entry {
  target : nat;
  isIntersecting : bool
}.

(** [initAnimations()], on a page whose elements in [classes] carry
    [fade-in] already. *)
Definition initAnimations (prefersReducedMotion : bool)
    (elementsToAnimate : list nat) (classes : gset nat) : animator :=
  if prefersReducedMotion
  then {| observed := ∅; fadeIn := classes |}
  else {| observed := list_to_set elementsToAnimate; fadeIn := classes |}.

(** The body of the callback's [forEach]. *)
Definition onEntry (st : animator) (e : entry) : animator :=
  if isIntersecting e
  then {| observed := observed st ∖ {[ target e ]};
          fadeIn := fadeIn st ∪ {[ target e ]} |}
  else st.

(** The observer's callback. *)
Definition callback (entries : list entry) (st : animator) : animator :=
  fold_left onEntry entries st.

(** The platform calls back with records about targets it is observing. *)
Definition notify (entries : list entry) (st : animator) : animator :=
  callback (filter (fun e => target e ∈ observed st) entries) st.

Definition notifyAll (batches : list (list entry)) (st : animator)
    : animator :=
  fold_left (fun q entries => notify entries q) batches st.

End Animations.

(** ** The debounce utility (main.js lines 351-361) *)

Module Debounce.
Section Debounced.
Context {A : Type}.

(** The closure state of [debounce(func, wait)]: the timer that is pending,
    with the arguments its [later] captured, and the calls of [func] made
    so far. How long [wait] is only decides when the platform fires the
    timer. *)
Record debounced : Type := Debounced {
  timeout : option A;
  invoked : list A
}.

(** [executedFunction(...args)]: [clearTimeout], then [setTimeout]. *)
Definition executedFunction (args : A) (st : debounced) : debounced :=
  {| timeout := Some args; invoked := invoked st |}.

(** The pending timer fires and runs [later]. *)
Definition later (st : debounced) : debounced :=
  match timeout st with
  | Some args => {| timeout := None; invoked := invoked st ++ [args] |}
  | None => st
  end.

Inductive event : Type :=
| Call (args : A)
| Fire.

Definition step (e : event) (st : debounced) : debounced :=
  match e with
  | Call args => executedFunction args st
  | Fire => later st
  end.

Definition run (es : list event) (st : debounced) : debounced :=
  fold_left (fun q e => step e q) es st.

(** [debounce(func, wait)] *)
Definition debounce : debounced := {| timeout := None; invoked := [] |}.

(** The arguments of the calls in a trace. *)
Definition callsOf (es : list event) : list A :=
  omap (fun e => match e with Call args => Some args | Fire => None end) es.

End Debounced.
End Debounce.

(** ** Further vocabulary *)

Module Terms.
Import Str Dom.

(** The toggle's three lines are drawn as a cross exactly when the menu is
    open. *)
Definition iconMatches (s : Nav.nav) : Prop :=
  if Nav.menuOpen s
  then Nav.line0Transform s = js "rotate(45deg) translate(5px, 5px)" /\
       Nav.line1Opacity s = js "0" /\
       Nav.line2Transform s = js "rotate(-45deg) translate(7px, -6px)"
  else Nav.line0Transform s = [] /\ Nav.line1Opacity s = [] /\
       Nav.line2Transform s = [].

(** A field as it is but for its error class. *)
Definition sameControl (f g : field) : Prop :=
  name g = name f /\ kind g = kind f /\ required g = required f /\
  defaultValue g = defaultValue f /\ value g = value f.

(** A field as it is but for its value. *)
Definition sameButValue (f g : field) : Prop :=
  name g = name f /\ kind g = kind f /\ required g = required f /\
  defaultValue g = defaultValue f /\ inputError g = inputError f.

(** What the region with the given id holds once [validateField] has run
    on a field: that field's verdict when the region is the field's own. *)
Definition regionAfterField (id : jsstring) (e : errorElement) (f : field)
    : errorElement :=
  if decide (id = Validator.errorId f)
  then {| textContent := (Validator.fieldRules f).2;
          errorShow := negb (Validator.fieldRules f).1 |}
  else e.

(** A field with a whitespace-only value emptied, any other field as it
    is. *)
Definition dropBlank (f : field) : field :=
  if decide (trim (value f) = []) then set_value f [] else f.

(** The form as a reload with empty defaults shows it. *)
Definition emptied (fs : list field) : list field :=
  (fun f => set_value f []) <$> fs.

End Terms.

(** ** Proof tools *)

(** Membership of a field in a form that is written out. *)
Ltac listed :=
  repeat first [apply list_elem_of_here | apply list_elem_of_further].

(** A property of every field of a form that is written out. *)
Ltac each_listed H :=
  repeat (apply elem_of_cons in H as [->|H]; [reflexivity |]);
  by apply elem_of_nil in H.

(** Distinct names in a form that is written out. *)
Ltac distinct_names := apply (bool_decide_unpack _); by vm_compute.

(* ===================================================================== *)
(** * Part II: properties *)
(* ===================================================================== *)

Section RegExpFacts.
Import Str RegExp.

Lemma lang_cat_inv r1 r2 s :
  lang (Cat r1 r2) s ->
  exists s1 s2, s = s1 ++ s2 /\ lang r1 s1 /\ lang r2 s2.
Proof. inversion 1; subst; eauto. Qed.

Lemma lang_alt_inv r1 r2 s : lang (Alt r1 r2) s -> lang r1 s \/ lang r2 s.
Proof. inversion 1; subst; eauto. Qed.

Lemma lang_class_inv p s :
  lang (Class p) s -> exists c, s = [c] /\ p c = true.
Proof. inversion 1; subst; eauto. Qed.

Lemma lang_cat_cons r1 r2 c s1 s2 :
  lang r1 (c :: s1) -> lang r2 s2 -> lang (Cat r1 r2) (c :: s1 ++ s2).
Proof. intros H1 H2. apply (lang_cat r1 r2 (c :: s1) s2 H1 H2). Qed.

Lemma lang_cat_nil_l r1 r2 s : lang r1 [] -> lang r2 s -> lang (Cat r1 r2) s.
Proof. intros H1 H2. apply (lang_cat r1 r2 [] s H1 H2). Qed.

Lemma nullable_lang r : nullable r = true <-> lang r [].
Proof.
  induction r as [| |p|r1 IH1 r2 IH2|r1 IH1 r2 IH2|r IH]; simpl.
  - split; [discriminate | inversion 1].
  - split; [constructor | reflexivity].
  - split; [discriminate | inversion 1].
  - rewrite andb_true_iff, IH1, IH2. split.
    + intros [H1 H2]. by apply lang_cat_nil_l.
    + intros (s1 & s2 & E & H1 & H2)%lang_cat_inv.
      symmetry in E. apply app_eq_nil in E as [-> ->]. by split.
  - rewrite orb_true_iff, IH1, IH2. split.
    + intros [H|H]; [by apply lang_alt_l | by apply lang_alt_r].
    + apply lang_alt_inv.
  - split; [constructor | reflexivity].
Qed.

Lemma lang_star_cons r c s :
  lang (Star r) (c :: s) ->
  exists s1 s2, s = s1 ++ s2 /\ lang r (c :: s1) /\ lang (Star r) s2.
Proof.
  intros H. remember (Star r) as r' eqn:Er. remember (c :: s) as w eqn:Ew.
  revert s Ew.
  induction H as [| | | | | |r0 u1 u2 H1 _ H2 IH2]; intros w' Ew;
    try discriminate.
  injection Er as ->. destruct u1 as [|c1 u1]; simpl in Ew.
  - by apply IH2.
  - injection Ew as <- <-. by exists u1, u2.
Qed.

Lemma deriv_lang c r s : lang (deriv c r) s <-> lang r (c :: s).
Proof.
  revert s. induction r as [| |p|r1 IH1 r2 IH2|r1 IH1 r2 IH2|r IH];
    intros s; simpl.
  - split; inversion 1.
  - split; inversion 1.
  - destruct (p c) eqn:Hp; split; intros H.
    + inversion H; subst. by constructor.
    + apply lang_class_inv in H as (c' & [= <- ->] & _). constructor.
    + inversion H.
    + apply lang_class_inv in H as (c' & [= <- ->] & Hc). congruence.
  - assert (Hcat : lang (Cat (deriv c r1) r2) s ->
                   lang (Cat r1 r2) (c :: s)).
    { intros (s1 & s2 & -> & H1 & H2)%lang_cat_inv.
      apply lang_cat_cons; [by apply IH1 | done]. }
    assert (Hinv : lang (Cat r1 r2) (c :: s) ->
                   lang (Cat (deriv c r1) r2) s \/
                   (lang r1 [] /\ lang r2 (c :: s))).
    { intros (s1 & s2 & E & H1 & H2)%lang_cat_inv.
      destruct s1 as [|c1 s1]; simpl in E.
      - right. by subst s2.
      - injection E as -> ->. left. constructor; [by apply IH1 | done]. }
    destruct (nullable r1) eqn:Hn; split; intros H.
    + apply lang_alt_inv in H as [H|H]; [by apply Hcat |].
      apply lang_cat_nil_l; [by apply nullable_lang | by apply IH2].
    + destruct (Hinv H) as [H'|[_ H']].
      * by apply lang_alt_l.
      * apply lang_alt_r. by apply IH2.
    + by apply Hcat.
    + destruct (Hinv H) as [H'|[H' _]]; [done |].
      apply nullable_lang in H'. congruence.
  - split; intros [H|H]%lang_alt_inv.
    + apply lang_alt_l. by apply IH1.
    + apply lang_alt_r. by apply IH2.
    + apply lang_alt_l. by apply IH1.
    + apply lang_alt_r. by apply IH2.
  - split; intros H.
    + apply lang_cat_inv in H as (s1 & s2 & -> & H1 & H2).
      apply (lang_star_app r (c :: s1) s2); [by apply IH | done].
    + apply lang_star_cons in H as (s1 & s2 & -> & H1 & H2).
      constructor; [by apply IH | done].
Qed.

Lemma matches_lang r s : matches r s = true <-> lang r s.
Proof.
  revert r. induction s as [|c s IH]; intros r; simpl.
  - apply nullable_lang.
  - rewrite IH. apply deriv_lang.
Qed.

End RegExpFacts.

Section EmailShape.
Import Str RegExp Spec.

Lemma lang_star_class p s :
  lang (Star (Class p)) s <-> Forall (fun c => p c = true) s.
Proof.
  split.
  - intros H. remember (Star (Class p)) as r eqn:Er.
    induction H as [| | | | | |r0 s1 s2 H1 _ H2 IH2]; try discriminate.
    + constructor.
    + injection Er as ->.
      apply lang_class_inv in H1 as (c & -> & Hc).
      constructor; [done | by apply IH2].
  - induction 1 as [|c s Hc _ IH].
    + constructor.
    + apply (lang_star_app (Class p) [c] s); [by constructor | done].
Qed.

Lemma lang_plus_class p s :
  lang (Plus (Class p)) s <-> s <> [] /\ Forall (fun c => p c = true) s.
Proof.
  unfold Plus. split.
  - intros (s1 & s2 & -> & H1 & H2)%lang_cat_inv.
    apply lang_class_inv in H1 as (c & -> & Hc).
    apply lang_star_class in H2. split; [done | by constructor].
  - intros [Hne H]. destruct H as [|c s Hc H]; [done |].
    apply (lang_cat (Class p) _ [c] s); [by constructor |].
    by apply lang_star_class.
Qed.

Lemma lang_chr a s : lang (Chr a) s <-> s = [a].
Proof.
  unfold Chr. split.
  - intros (c & -> & Hc)%lang_class_inv. apply N.eqb_eq in Hc. by subst.
  - intros ->. constructor. apply N.eqb_refl.
Qed.

Lemma not_space_or_at_plain c : not_space_or_at c = true <-> plainChar c.
Proof.
  unfold not_space_or_at, plainChar.
  rewrite negb_true_iff, orb_false_iff, N.eqb_neq. reflexivity.
Qed.

Lemma plain_run s :
  lang (Plus (Class not_space_or_at)) s <-> s <> [] /\ Forall plainChar s.
Proof.
  rewrite lang_plus_class. split; intros [Hne H]; split; try done.
  - eapply Forall_impl; [exact H |]. intros c. apply not_space_or_at_plain.
  - eapply Forall_impl; [exact H |]. intros c. apply not_space_or_at_plain.
Qed.

(** The pattern of line 161 denotes exactly the strings of the shape. *)
Lemma emailRegex_shape s : RegExp.test emailRegex s = true <-> emailShape s.
Proof.
  unfold RegExp.test. rewrite matches_lang. unfold emailRegex, emailShape.
  split.
  - intros (l & s1 & -> & Hl & H)%lang_cat_inv.
    apply lang_cat_inv in H as (a & s2 & -> & Ha & H).
    apply lang_cat_inv in H as (d & s3 & -> & Hd & H).
    apply lang_cat_inv in H as (o & tl & -> & Ho & Ht).
    apply lang_chr in Ha as ->. apply lang_chr in Ho as ->.
    apply plain_run in Hl as [? ?]. apply plain_run in Hd as [? ?].
    apply plain_run in Ht as [? ?].
    by exists l, d, tl.
  - intros (l & d & tl & -> & ? & ? & ? & ? & ? & ?).
    repeat (apply lang_cat; try (by apply plain_run); try (by apply lang_chr)).
Qed.

End EmailShape.

Section ValidatorFacts.
Import Str RegExp Dom Validator Spec.

Lemma truthy_nonempty (s : jsstring) : truthy s = true <-> s <> [].
Proof. destruct s; simpl; split; congruence. Qed.

Lemma truthy_empty (s : jsstring) : truthy s = false <-> s = [].
Proof. destruct s; simpl; split; congruence. Qed.

Lemma len_lt_10 (s : jsstring) : (len s <? 10) = true <-> (length s < 10)%nat.
Proof. unfold len. rewrite N.ltb_lt. lia. Qed.

(** The sequence of overriding assignments of [validateField], read as a
    decision on the trimmed value. *)
Lemma fieldRules_cases f :
  fieldRules f =
    let v := trim (value f) in
    if truthy v
    then
      match kind f with
      | Input t =>
          if Str.eqb t (js "email") && negb (RegExp.test emailRegex v)
          then (false, emailMessage)
          else (true, [])
      | Textarea =>
          if len v <? 10 then (false, lengthMessage) else (true, [])
      end
    else if required f then (false, requiredMessage) else (true, []).
Proof.
  unfold fieldRules, type, tagName. cbv zeta.
  destruct (truthy (trim (value f))) eqn:Hv, (required f), (kind f) as [t|];
    simpl.
  all: try (destruct (Str.eqb t (js "email")); simpl).
  all: try (destruct (RegExp.test emailRegex (trim (value f))); simpl).
  all: try (destruct (len (trim (value f)) <? 10); simpl).
  all: try reflexivity.
Qed.

Lemma messages_distinct :
  requiredMessage <> [] /\ emailMessage <> [] /\ lengthMessage <> [] /\
  requiredMessage <> emailMessage /\ requiredMessage <> lengthMessage /\
  emailMessage <> lengthMessage.
Proof. repeat split; intros H; vm_compute in H; discriminate. Qed.

Lemma showFieldError_field f message es :
  (showFieldError f message es).1 = set_inputError f (truthy message).
Proof. reflexivity. Qed.

Lemma showFieldError_region f message es :
  (showFieldError f message es).2 !! errorId f =
    (fun _ => {| textContent := message; errorShow := truthy message |})
      <$> es !! errorId f.
Proof.
  unfold showFieldError. simpl.
  destruct (es !! errorId f) eqn:E; simpl.
  - by rewrite lookup_insert_eq.
  - by rewrite E.
Qed.

Lemma showFieldError_other f message es id :
  id <> errorId f -> (showFieldError f message es).2 !! id = es !! id.
Proof.
  intros Hne. unfold showFieldError. simpl.
  destruct (es !! errorId f); [by rewrite lookup_insert_ne | done].
Qed.

(** C1. [validateField] returns the verdict of the rules and shows their
    message. The verdict is "invalid, This field is required." exactly
    when the field is required and its trimmed value is empty; it is
    "invalid, Please provide more details (at least 10 characters)."
    exactly when the field is a textarea whose trimmed value is not empty
    and shorter than 10; when no rule fails the field is valid with the
    empty message; and the message is empty exactly when the field is
    valid. *)
Theorem validateField_rules (f : field) (es : gmap jsstring errorElement) :
  let verdict := fieldRules f in
  validateField f es = (showFieldError f verdict.2 es, verdict.1) /\
  (verdict = (false, requiredMessage) <-> requiredFails f) /\
  (verdict = (false, lengthMessage) <-> lengthFails f) /\
  (~ requiredFails f -> ~ emailFails f -> ~ lengthFails f ->
   verdict = (true, [])) /\
  (verdict.2 = [] <-> verdict.1 = true).
Proof.
  destruct messages_distinct as (Hr & He & Hl & Hre & Hrl & Hel).
  cbv zeta. split.
  { unfold validateField. by destruct (fieldRules f). }
  rewrite fieldRules_cases. cbv zeta.
  unfold requiredFails, emailFails, lengthFails.
  destruct (truthy (trim (value f))) eqn:Hv.
  - apply truthy_nonempty in Hv.
    destruct (kind f) as [t|] eqn:Hk.
    + destruct (Str.eqb t (js "email")
                && negb (RegExp.test emailRegex (trim (value f)))) eqn:Hm;
        simpl.
      * assert (Hmail : t = js "email" /\ ~ emailShape (trim (value f))).
        { apply andb_true_iff in Hm as [Ht Hm].
          apply bool_decide_eq_true in Ht. split; [done |].
          rewrite <- emailRegex_shape. apply negb_true_iff in Hm.
          congruence. }
        destruct Hmail as [-> Hshape]. naive_solver.
      * naive_solver.
    + destruct (len (trim (value f)) <? 10) eqn:Hlen; simpl.
      * apply len_lt_10 in Hlen. naive_solver.
      * assert (~ (length (trim (value f)) < 10)%nat).
        { rewrite <- len_lt_10. congruence. }
        naive_solver.
  - apply truthy_empty in Hv.
    destruct (required f) eqn:Hreq; simpl; naive_solver.
Qed.

(** An optional text field left empty, and the required message field
    holding a single word. *)
Lemma validateField_rules_witness :
  fieldRules {| name := js "phone"; kind := Input (js "tel");
                required := false; defaultValue := []; value := js "  ";
                inputError := false |} = (true, []) /\
  fieldRules (Samples.messageField (js " Hello ")) = (false, lengthMessage).
Proof.
  split.
  - apply (validateField_rules
             {| name := js "phone"; kind := Input (js "tel");
                required := false; defaultValue := []; value := js "  ";
                inputError := false |} ∅).
    + intros [H _]. discriminate H.
    + intros [H _]. discriminate H.
    + intros [H _]. discriminate H.
  - apply (validateField_rules (Samples.messageField (js " Hello ")) ∅).
    split; [reflexivity |]. split; [by vm_compute | vm_compute; lia].
Defined.

Lemma validateField_verdict f es :
  validateField f es =
    (showFieldError f (fieldRules f).2 es, (fieldRules f).1).
Proof. unfold validateField. by destruct (fieldRules f). Qed.

Lemma fieldRules_message f :
  truthy (fieldRules f).2 = negb (fieldRules f).1.
Proof.
  rewrite fieldRules_cases. cbv zeta.
  destruct (truthy (trim (value f))), (kind f), (required f); simpl;
    repeat match goal with |- context [if ?b then _ else _] => destruct b end;
    reflexivity.
Qed.

(** C2. The pattern of the email check accepts a string exactly when it
    has the [localpart@domain.tld] shape. For an email field whose trimmed
    value S is not empty, validation succeeds exactly when S has the
    shape, and otherwise the verdict is "invalid, Please enter a valid
    email address.". In particular "a@b.com" is valid while "a@b" and
    "not-an-email" are not. *)
Theorem email_check_shape :
  (forall S : jsstring, RegExp.test emailRegex S = true <-> emailShape S) /\
  (forall (f : field) (es : gmap jsstring errorElement) (S : jsstring),
      kind f = Input (js "email") -> trim (value f) = S -> S <> [] ->
      ((validateField f es).2 = true <-> emailShape S) /\
      (~ emailShape S -> fieldRules f = (false, emailMessage))) /\
  fieldRules (Samples.emailField (js "a@b.com")) = (true, []) /\
  fieldRules (Samples.emailField (js "a@b")) = (false, emailMessage) /\
  fieldRules (Samples.emailField (js "not-an-email")) = (false, emailMessage).
Proof.
  split; [exact emailRegex_shape |].
  split; [| by vm_compute].
  intros f es S Hk <- Hne.
  rewrite validateField_verdict, fieldRules_cases. cbv zeta. simpl.
  apply truthy_nonempty in Hne. rewrite Hne, Hk.
  replace (Str.eqb (js "email") (js "email")) with true by reflexivity.
  simpl. rewrite <- emailRegex_shape.
  destruct (RegExp.test emailRegex (trim (value f))); simpl;
    split; try done; split; congruence.
Qed.

(** An address typed with a space on either side. *)
Lemma email_check_shape_witness :
  (validateField (Samples.emailField (js " kyle@example.com ")) ∅).2 = true
  <-> emailShape (js "kyle@example.com").
Proof.
  destruct email_check_shape as (_ & H & _).
  apply (H (Samples.emailField (js " kyle@example.com ")) ∅
           (js "kyle@example.com")).
  - reflexivity.
  - by vm_compute.
  - by vm_compute.
Defined.

(** What [validateField] leaves of a field, whatever the error regions. *)
Lemma validateField_field f es :
  (validateField f es).1.1 = set_inputError f (negb (fieldRules f).1).
Proof.
  rewrite validateField_verdict. simpl. by rewrite fieldRules_message.
Qed.

Lemma validateField_regions f es :
  (validateField f es).1.2 = (showFieldError f (fieldRules f).2 es).2.
Proof. by rewrite validateField_verdict. Qed.

Lemma validateFormLoop_unfold fs es b :
  validateFormLoop fs es b =
    ((fun f => set_inputError f (negb (fieldRules f).1)) <$> fs,
     regionsAfter fs es,
     b && forallb (fun f => (fieldRules f).1) fs).
Proof.
  revert es b. induction fs as [|f fs IH]; intros es b; simpl.
  - by rewrite andb_true_r.
  - pose proof (validateField_field f es) as Hf.
    pose proof (validateField_verdict f es) as Hv.
    unfold regionsAfter. simpl.
    destruct (validateField f es) as [[f' es'] valid] eqn:E.
    simpl in Hf. subst f'.
    assert (valid = (fieldRules f).1) as -> by congruence.
    rewrite IH. unfold regionsAfter. simpl.
    f_equal. by destruct (fieldRules f).1, b.
Qed.

Lemma errorId_inj f g : errorId f = errorId g -> name f = name g.
Proof. unfold errorId. apply app_inv_tail. Qed.

Lemma regionsAfter_other fs es id :
  (forall f, f ∈ fs -> errorId f <> id) ->
  regionsAfter fs es !! id = es !! id.
Proof.
  revert es. induction fs as [|f fs IH]; intros es Hid; simpl; [done |].
  rewrite IH.
  - rewrite validateField_regions. apply showFieldError_other.
    intros ->. apply (Hid f); [apply list_elem_of_here | done].
  - intros g Hg. apply Hid. by apply list_elem_of_further.
Qed.

Lemma regionsAfter_own fs es f :
  NoDup (name <$> fs) -> f ∈ fs ->
  regionsAfter fs es !! errorId f =
    (fun _ => {| textContent := (fieldRules f).2;
                 errorShow := negb (fieldRules f).1 |})
      <$> es !! errorId f.
Proof.
  revert es. induction fs as [|g fs IH]; intros es Hnd Hf; simpl.
  - by apply elem_of_nil in Hf.
  - simpl in Hnd. apply NoDup_cons in Hnd as [Hg Hnd].
    apply elem_of_cons in Hf as [->|Hf].
    + rewrite regionsAfter_other.
      * rewrite validateField_regions, showFieldError_region.
        by rewrite fieldRules_message.
      * intros f Hf Heq. apply errorId_inj in Heq. apply Hg.
        rewrite <- Heq. apply list_elem_of_fmap. by exists f.
    + rewrite IH by done.
      rewrite validateField_regions, showFieldError_other; [done |].
      intros Heq. apply errorId_inj in Heq. apply Hg.
      rewrite <- Heq. apply list_elem_of_fmap. by exists f.
Qed.

(** C3. [validateForm] returns the conjunction of the per-field results;
    it evaluates every field, each one leaving with the error class its
    own verdict gives it; and when some field fails it returns false while
    every failing field has its error class set and, the fields having
    their own error regions, its own message shown there. *)
Theorem validateForm_conjunction
    (fs : list field) (es : gmap jsstring errorElement) :
  let out := validateForm fs es in
  out.2 = forallb (fun f => (validateField f es).2) fs /\
  out.1.1 = (fun f => (validateField f es).1.1) <$> fs /\
  (forall f, f ∈ fs -> (validateField f es).2 = false ->
     out.2 = false /\
     (forall i, fs !! i = Some f ->
        out.1.1 !! i = Some (set_inputError f true)) /\
     (NoDup (name <$> fs) -> is_Some (es !! errorId f) ->
        (fieldRules f).2 <> [] /\
        out.1.2 !! errorId f =
          Some {| textContent := (fieldRules f).2; errorShow := true |})).
Proof.
  cbv zeta. unfold validateForm. rewrite validateFormLoop_unfold. simpl.
  split; [| split].
  - induction fs as [|f fs IH]; simpl; [done |].
    by rewrite IH, validateField_verdict.
  - apply list_fmap_ext. intros i f _. by rewrite validateField_field.
  - intros f Hf. rewrite validateField_verdict. simpl. intros Hbad.
    split; [| split].
    + apply not_true_iff_false. rewrite forallb_forall.
      intros Hall. apply list_elem_of_In in Hf.
      specialize (Hall f Hf). congruence.
    + intros i Hi. rewrite list_lookup_fmap, Hi. simpl. by rewrite Hbad.
    + intros Hnd [e He]. split.
      * apply truthy_nonempty. by rewrite fieldRules_message, Hbad.
      * rewrite regionsAfter_own by done. by rewrite He, Hbad.
Qed.

(** The contact form with an empty name and a malformed address. *)
Lemma validateForm_conjunction_witness :
  let fs := Samples.contactFields [] (js "a@b") (js "A long enough text") in
  let out := validateForm fs Samples.contactRegions in
  out.2 = false /\
  out.1.2 !! js "name-error" =
    Some {| textContent := requiredMessage; errorShow := true |} /\
  out.1.2 !! js "email-error" =
    Some {| textContent := emailMessage; errorShow := true |}.
Proof.
  cbv zeta.
  pose proof (validateForm_conjunction
    (Samples.contactFields [] (js "a@b") (js "A long enough text"))
    Samples.contactRegions) as H.
  cbv zeta in H. destruct H as (_ & _ & H).
  assert (Hnd : NoDup (name <$>
    (Samples.contactFields [] (js "a@b") (js "A long enough text")))).
  { distinct_names. }
  split; [| split].
  - apply (H (Samples.nameField [])); [apply list_elem_of_here | reflexivity].
  - destruct (H (Samples.nameField [])) as (_ & _ & Hn);
      [apply list_elem_of_here | reflexivity |].
    destruct (Hn Hnd) as [_ Hshown]; [vm_compute; eauto |]. exact Hshown.
  - destruct (H (Samples.emailField (js "a@b"))) as (_ & _ & He);
      [listed | by vm_compute |].
    destruct (He Hnd) as [_ Hshown]; [vm_compute; eauto |]. exact Hshown.
Defined.

End ValidatorFacts.

Section PersistenceFacts.
Import Str Dom Persistence Spec.

Lemma collect_fold fs : collect fs = fold_left collectStep fs ∅.
Proof. reflexivity. Qed.

Lemma set_lookup_other (o : gmap jsstring jsstring) k v j :
  j <> k -> Obj.set o k v !! j = o !! j.
Proof.
  intros Hne. unfold Obj.set.
  destruct (decide (k = js "__proto__")); [destruct (o !! k) |];
    try done; by rewrite lookup_insert_ne.
Qed.

Lemma set_lookup_own (o : gmap jsstring jsstring) k v :
  k <> js "__proto__" -> Obj.set o k v !! k = Some v.
Proof.
  intros Hne. unfold Obj.set. rewrite decide_False by done.
  by rewrite lookup_insert_eq.
Qed.

Lemma set_lookup_Some (o : gmap jsstring jsstring) k v j w :
  Obj.set o k v !! j = Some w -> o !! j = Some w \/ (j = k /\ w = v).
Proof.
  destruct (decide (j = k)) as [->|Hne].
  - unfold Obj.set.
    destruct (decide (k = js "__proto__")); [destruct (o !! k) eqn:E |].
    + rewrite lookup_insert_eq. intros [= <-]. by right.
    + rewrite E. done.
    + rewrite lookup_insert_eq. intros [= <-]. by right.
  - rewrite set_lookup_other by done. by left.
Qed.

Lemma set_mono (o : gmap jsstring jsstring) k v j :
  is_Some (o !! j) -> is_Some (Obj.set o k v !! j).
Proof.
  intros H. destruct (decide (j = k)) as [->|Hne].
  - unfold Obj.set.
    destruct (decide (k = js "__proto__")); [destruct (o !! k) eqn:E |].
    + rewrite lookup_insert_eq. eauto.
    + by destruct H.
    + rewrite lookup_insert_eq. eauto.
  - by rewrite set_lookup_other.
Qed.

Lemma set_proto_none (o : gmap jsstring jsstring) k v :
  o !! js "__proto__" = None -> Obj.set o k v !! js "__proto__" = None.
Proof.
  intros H. unfold Obj.set.
  destruct (decide (k = js "__proto__")) as [->|Hne].
  - by rewrite H.
  - by rewrite lookup_insert_ne.
Qed.

Lemma collectFrom_other fs acc k :
  k ∉ name <$> fs -> fold_left collectStep fs acc !! k = acc !! k.
Proof.
  revert acc. induction fs as [|g fs IH]; intros acc Hk; simpl; [done |].
  rewrite fmap_cons, not_elem_of_cons in Hk. destruct Hk as [Hne Hk].
  rewrite IH by done. unfold collectStep.
  destruct (truthy (trim (value g))); [by rewrite set_lookup_other | done].
Qed.

Lemma collectFrom_Some fs acc k v :
  fold_left collectStep fs acc !! k = Some v ->
  acc !! k = Some v \/
  exists f, f ∈ fs /\ name f = k /\ value f = v /\ trim (value f) <> [].
Proof.
  revert acc. induction fs as [|g fs IH]; intros acc H; simpl in H.
  - by left.
  - apply IH in H as [H|(f & Hf & Hn & Hv & Hb)].
    + unfold collectStep in H.
      destruct (truthy (trim (value g))) eqn:Hg; [| by left].
      apply set_lookup_Some in H as [H|[-> ->]]; [by left |].
      right. exists g. split; [apply list_elem_of_here |].
      by rewrite <- truthy_nonempty.
    + right. exists f. split; [by apply list_elem_of_further | done].
Qed.

Lemma collectFrom_mono fs acc k :
  is_Some (acc !! k) -> is_Some (fold_left collectStep fs acc !! k).
Proof.
  revert acc. induction fs as [|g fs IH]; intros acc H; simpl; [done |].
  apply IH. unfold collectStep.
  destruct (truthy (trim (value g))); [| done]. by apply set_mono.
Qed.

Lemma collectFrom_nonblank fs acc f :
  f ∈ fs -> trim (value f) <> [] -> name f <> js "__proto__" ->
  is_Some (fold_left collectStep fs acc !! name f).
Proof.
  revert acc. induction fs as [|g fs IH]; intros acc Hf Hb Hp; simpl.
  - by apply elem_of_nil in Hf.
  - apply elem_of_cons in Hf as [<-|Hf]; [| by apply IH].
    apply collectFrom_mono. unfold collectStep.
    apply truthy_nonempty in Hb. rewrite Hb, set_lookup_own by done. eauto.
Qed.

Lemma collectFrom_proto fs acc :
  acc !! js "__proto__" = None ->
  fold_left collectStep fs acc !! js "__proto__" = None.
Proof.
  revert acc. induction fs as [|g fs IH]; intros acc H; simpl; [done |].
  apply IH. unfold collectStep.
  destruct (truthy (trim (value g))); [by apply set_proto_none | done].
Qed.

(** The collected object never has an entry named [__proto__]. *)
Lemma collect_proto fs : collect fs !! js "__proto__" = None.
Proof. rewrite collect_fold. by apply collectFrom_proto. Qed.

(** Every entry of the collected object is the raw value of a field of
    that name whose trimmed value is not empty. *)
Lemma collect_Some fs k v :
  collect fs !! k = Some v ->
  exists f, f ∈ fs /\ name f = k /\ value f = v /\ trim (value f) <> [].
Proof.
  rewrite collect_fold. intros [H|H]%collectFrom_Some; [| done].
  by rewrite lookup_empty in H.
Qed.

Lemma names_distinct (fs : list field) f g :
  NoDup (name <$> fs) -> f ∈ fs -> g ∈ fs -> name f = name g -> f = g.
Proof.
  induction fs as [|h fs IH]; intros Hnd Hf Hg Hn.
  - by apply elem_of_nil in Hf.
  - rewrite fmap_cons in Hnd. apply NoDup_cons in Hnd as [Hh Hnd].
    apply elem_of_cons in Hf as [->|Hf], Hg as [->|Hg]; try done.
    + exfalso. apply Hh. rewrite Hn. by apply list_elem_of_fmap_2.
    + exfalso. apply Hh. rewrite <- Hn. by apply list_elem_of_fmap_2.
    + by apply IH.
Qed.

(** With distinct names, a field with a non-blank value, not named
    [__proto__], is stored under its name with its raw value. *)
Lemma collect_own fs f :
  NoDup (name <$> fs) -> f ∈ fs -> trim (value f) <> [] ->
  name f <> js "__proto__" ->
  collect fs !! name f = Some (value f).
Proof.
  intros Hnd Hf Hb Hp.
  destruct (collectFrom_nonblank fs ∅ f Hf Hb Hp) as [v Hv].
  rewrite collect_fold, Hv. f_equal.
  rewrite <- collect_fold in Hv.
  apply collect_Some in Hv as (g & Hg & Hn & <- & _).
  by rewrite (names_distinct fs g f Hnd Hg Hf Hn).
Qed.

(** With distinct names, a blank field has no entry. *)
Lemma collect_blank fs f :
  NoDup (name <$> fs) -> f ∈ fs -> trim (value f) = [] ->
  collect fs !! name f = None.
Proof.
  intros Hnd Hf Hb. destruct (collect fs !! name f) as [v|] eqn:E; [| done].
  apply collect_Some in E as (g & Hg & Hn & _ & Hgb).
  rewrite (names_distinct fs g f Hnd Hg Hf Hn) in Hgb. done.
Qed.

Lemma collect_all_blank fs :
  (forall f, f ∈ fs -> trim (value f) = []) -> collect fs = ∅.
Proof.
  intros Hall. apply map_eq. intros k. rewrite lookup_empty.
  destruct (collect fs !! k) as [v|] eqn:E; [| done].
  apply collect_Some in E as (g & Hg & _ & _ & Hgb).
  by specialize (Hall g Hg).
Qed.

Lemma saveFormData_all_blank fs storage :
  (forall f, f ∈ fs -> trim (value f) = []) ->
  saveFormData fs storage = storage.
Proof.
  intros Hall. unfold saveFormData.
  by rewrite (collect_all_blank fs Hall), map_size_empty.
Qed.

(** A collected object with an entry is written. *)
Lemma saveFormData_written fs storage k :
  is_Some (collect fs !! k) ->
  saveFormData fs storage = Some (Json (collect fs)).
Proof.
  intros [v Hv]. unfold saveFormData.
  destruct (size (collect fs)) eqn:Hsz; [| done].
  apply map_size_empty_iff in Hsz. rewrite Hsz, lookup_empty in Hv. done.
Qed.

Lemma saveFormData_some_nonblank fs storage f :
  f ∈ fs -> trim (value f) <> [] -> name f <> js "__proto__" ->
  saveFormData fs storage = Some (Json (collect fs)).
Proof.
  intros Hf Hb Hp. apply (saveFormData_written fs storage (name f)).
  rewrite collect_fold. by apply collectFrom_nonblank.
Qed.

Lemma saveFormData_cases fs storage :
  saveFormData fs storage = Some (Json (collect fs)) \/
  saveFormData fs storage = storage.
Proof. unfold saveFormData. destruct (0 <? size (collect fs))%nat; eauto. Qed.

Lemma trim_nil_nonblank (v : jsstring) : trim v <> [] -> truthy v = true.
Proof. destruct v; [by vm_compute | done]. Qed.

Lemma restore_own m g v :
  m !! name g = Some v -> trim v <> [] -> restore m g = set_value g v.
Proof.
  intros Hm Hv. unfold restore, Obj.get. rewrite Hm. simpl.
  by rewrite (trim_nil_nonblank v Hv).
Qed.

(** The claim as worded fails: after a save with every field empty, the
    snapshot saved earlier is still there, entry for the now empty name
    field included. *)
Lemma saveFormData_stale_entry :
  let fs := Samples.contactFields [] [] [] in
  let before := Some (Json {[ js "name" := js "Alice" ]}) in
  ~ omitsBlankFields fs (saveFormData fs before).
Proof.
  cbv zeta. intros H.
  specialize (H (Samples.nameField []) {[ js "name" := js "Alice" ]}).
  assert (E : ({[ js "name" := js "Alice" ]} : gmap jsstring jsstring)
                !! name (Samples.nameField []) = None).
  { apply H; [apply list_elem_of_here | reflexivity | reflexivity]. }
  change (name (Samples.nameField [])) with (js "name") in E.
  by rewrite lookup_singleton_eq in E.
Qed.

(** C7, amended. When every field is empty or whitespace-only,
    [saveFormData] writes nothing and the stored item stays as it was.
    When some field, not named [__proto__], is not, the stored item becomes
    the object just collected: each of its entries is the raw value of a
    field of that name whose trimmed value is not empty, and, field names
    being distinct, it has no entry for a field whose value is empty or
    whitespace-only. *)
Theorem saveFormData_omits_blank (fs : list field) (storage : option item) :
  ((forall f, f ∈ fs -> blank (value f)) ->
   saveFormData fs storage = storage) /\
  ((exists f, f ∈ fs /\ ~ blank (value f) /\ name f <> js "__proto__") ->
   saveFormData fs storage = Some (Json (collect fs)) /\
   (forall k v, collect fs !! k = Some v ->
      ~ blank v /\ exists f, f ∈ fs /\ name f = k /\ value f = v) /\
   (NoDup (name <$> fs) -> omitsBlankFields fs (saveFormData fs storage))).
Proof.
  unfold blank. split.
  - apply saveFormData_all_blank.
  - intros (f & Hf & Hb & Hp).
    pose proof (saveFormData_some_nonblank fs storage f Hf Hb Hp) as Hsave.
    split; [done |]. split.
    + intros k v (g & Hg & Hn & Hv & Hgb)%collect_Some. subst v.
      split; [done |]. by exists g.
    + intros Hnd g m Hg Hgb. rewrite Hsave. intros [= <-].
      by apply collect_blank.
Qed.

(** The contact form with every field blank, over an earlier snapshot,
    and with only the name filled in. *)
Lemma saveFormData_omits_blank_witness :
  let before := Some (Json {[ js "name" := js "Alice" ]}) in
  let fs := Samples.contactFields (js "Bob") (js "  ") [] in
  saveFormData (Samples.contactFields [] (js "  ") []) before = before /\
  saveFormData fs before = Some (Json (collect fs)) /\
  omitsBlankFields fs (saveFormData fs before).
Proof.
  cbv zeta. split.
  - apply (saveFormData_omits_blank
             (Samples.contactFields [] (js "  ") [])).
    intros f Hf. unfold Samples.contactFields in Hf. each_listed Hf.
  - destruct (saveFormData_omits_blank
                (Samples.contactFields (js "Bob") (js "  ") [])
                (Some (Json {[ js "name" := js "Alice" ]})))
      as [_ H].
    destruct H as (Hsave & _ & Homit).
    + exists (Samples.nameField (js "Bob")).
      split; [apply list_elem_of_here |]. split; by vm_compute.
    + split; [exact Hsave |]. apply Homit.
      distinct_names.
Defined.

End PersistenceFacts.

Section SubmitterFacts.
Import Str Dom Submitter Handlers Spec.

Lemma ok_range status : ok status = true <-> 200 <= status <= 299.
Proof. unfold ok. rewrite andb_true_iff, !N.leb_le. reflexivity. Qed.

Lemma fails_throws response p :
  fails response -> exists err, tryBlock response p = (p, Some err).
Proof.
  destruct response as [status|reason]; simpl; intros H; [| eauto].
  destruct (ok status) eqn:E; [| eauto].
  apply ok_range in E. contradiction.
Qed.

(** The two message regions after [showFormMessage]: one shown, the other
    hidden. *)
Lemma showFormMessage_exclusive type message p :
  messageShow (formSuccess (showFormMessage type message p)) =
    negb (messageShow (formError (showFormMessage type message p))).
Proof. by destruct type. Qed.

(** C4. When the network call rejects or answers with a non-2xx status,
    the run of [submitForm] leaves the fields and the stored snapshot as
    they were, shows the generic failure message and does not show the
    success message; the same holds of the part of [submitForm] that runs
    when the request settles, from whatever page it resumes on. Showing
    one message region always hides the other. *)
Theorem submitForm_failure (response : settled) (p : page) :
  fails response ->
  (let p' := submitForm response p in
   formInputs p' = formInputs p /\
   localStorage p' = localStorage p /\
   formError p' = {| messageText := failureMessage; messageShow := true |} /\
   messageShow (formSuccess p') = false) /\
  (forall originalText q,
     let q' := submitFormSettle originalText response q in
     formInputs q' = formInputs q /\
     localStorage q' = localStorage q /\
     formError q' = {| messageText := failureMessage; messageShow := true |} /\
     messageShow (formSuccess q') = false) /\
  (forall type message q,
     messageShow (formSuccess (showFormMessage type message q)) =
       negb (messageShow (formError (showFormMessage type message q)))).
Proof.
  intros Hfail. split; [| split].
  - cbv zeta. unfold submitForm, submitFormStart, submitFormSettle.
    destruct (fails_throws response (set_submit p (js "Sending...") true) Hfail)
      as [err ->].
    by repeat split.
  - intros originalText q. cbv zeta. unfold submitFormSettle.
    destruct (fails_throws response q Hfail) as [err ->].
    by repeat split.
  - apply showFormMessage_exclusive.
Qed.

(** A filled-in contact form whose request is answered with status 500. *)
Lemma submitForm_failure_witness :
  let p := Samples.contactPage (js "post") (js "Alice") (js "a@b.com")
             (js "Please call me back.")
             (Some (Json {[ js "name" := js "Alice" ]})) in
  let p' := submitForm (Fulfilled 500) p in
  formInputs p' = formInputs p /\
  localStorage p' = localStorage p /\
  formError p' = {| messageText := failureMessage; messageShow := true |} /\
  messageShow (formSuccess p') = false.
Proof.
  cbv zeta.
  apply (submitForm_failure (Fulfilled 500)). simpl. lia.
Defined.

(** The claim as worded fails: a form that declares GET is still
    submitted with POST. *)
Lemma submitForm_ignores_declared_method :
  let p := Samples.contactPage (js "get") (js "Alice") (js "a@b.com")
             (js "Please call me back.") None in
  method (submitFormStart p).1.2 <> formMethod p.
Proof. cbv zeta. intros H. vm_compute in H. discriminate. Qed.

(** C5, amended. The request that [submitForm] issues goes to the form's
    action, always with method POST whatever method the form declares,
    with the form's entries as a multipart form-data body and the single
    header Accept: application/json. *)
Theorem submitForm_request (p : page) :
  let req := (submitFormStart p).1.2 in
  url req = formAction p /\
  method req = js "POST" /\
  body req = FormData (formEntries (formInputs p)) /\
  contentType (body req) = js "multipart/form-data" /\
  headers req = [(js "Accept", js "application/json")].
Proof. by repeat split. Qed.

Lemma handle_submit e p :
  submitText (handle e p) = submitText p /\
  submitDisabled (handle e p) = submitDisabled p.
Proof.
  destruct e as [i|i typed]; simpl; destruct (formInputs p !! i); try done.
  by destruct (Validator.validateField f (errorElements p)) as [[? ?] ?].
Qed.

Lemma handleAll_submit es p :
  submitText (handleAll es p) = submitText p /\
  submitDisabled (handleAll es p) = submitDisabled p.
Proof.
  revert p. induction es as [|e es IH]; intros p; simpl; [done |].
  destruct (IH (handle e p)) as [-> ->]. apply handle_submit.
Qed.

(** C6. From the start of [submitForm] on, the submit control is disabled
    and reads "Sending...", and stays so through whatever blur and input
    events are handled while the request is in flight; when the request
    settles, whether with a success status, another status or a rejection,
    the control reads its original label again and is enabled. *)
Theorem submitForm_button (p : page) :
  let p1 := (submitFormStart p).1.1 in
  let originalText := (submitFormStart p).2 in
  originalText = submitText p /\
  (forall es,
     submitText (handleAll es p1) = js "Sending..." /\
     submitDisabled (handleAll es p1) = true) /\
  (forall es response,
     let p2 := submitFormSettle originalText response (handleAll es p1) in
     submitText p2 = submitText p /\ submitDisabled p2 = false).
Proof.
  cbv zeta. split; [done |]. split.
  - intros es. apply handleAll_submit.
  - intros es response. unfold submitFormSettle.
    destruct (tryBlock response _) as [q [err|]]; by split.
Qed.

End SubmitterFacts.

Section RoundTrip.
Import Str Dom Persistence Submitter Spec.

Lemma loadFormData_saved fs storage (fs' : list field) i g v :
  collect fs !! name g = Some v -> fs' !! i = Some g ->
  (loadFormData (saveFormData fs storage) fs').1 !! i
    = Some (set_value g v).
Proof.
  intros Hv Hg.
  destruct (collect_Some fs (name g) v Hv) as (f & Hf & _ & Hfv & Hb).
  rewrite (saveFormData_written fs storage (name g)) by eauto. simpl.
  rewrite list_lookup_fmap, Hg. simpl. f_equal.
  apply restore_own; [done | by subst v].
Qed.




(** C10, at the failing input. A control named [__proto__] is never saved:
    the object that [saveFormData] collects has no entry of that name,
    whatever the fields hold, so with only that control filled in nothing
    is written, and a reload gives the control nothing back. *)
Theorem proto_field_not_saved :
  (forall fs, collect fs !! js "__proto__" = None) /\
  (forall v storage,
     saveFormData [Samples.protoField v] storage = storage) /\
  (loadFormData (saveFormData [Samples.protoField (js "x")] None)
     [Samples.protoField []]).1 = [Samples.protoField []].
Proof.
  split; [exact collect_proto |]. split; [| reflexivity].
  intros v storage. unfold saveFormData.
  assert (E : collect [Samples.protoField v] = ∅).
  { apply map_eq. intros k. rewrite lookup_empty.
    destruct (collect [Samples.protoField v] !! k) as [w|] eqn:Hk; [| done].
    pose proof Hk as Hk'.
    apply collect_Some in Hk as (f & Hf & <- & _).
    apply elem_of_cons in Hf as [->|Hf]; [| by apply elem_of_nil in Hf].
    change (name (Samples.protoField v)) with (js "__proto__") in Hk'.
    by rewrite collect_proto in Hk'. }
  by rewrite E, map_size_empty.
Qed.

(** X23. For a tracked field, the turn of [saveFormData] that visits it
    stores nothing when the trimmed value is empty and otherwise assigns
    the raw, untrimmed value under the field's name: trimming only decides
    omission. In a form whose fields have distinct names, a field not named
    [__proto__] whose value has a non-empty trim is therefore in the stored
    snapshot with its raw value, and [loadFormData] then writes that very
    value into the field of that name, whitespace around it included; a
    field whose value is empty or whitespace-only has no entry in the
    collected object, which is the only thing a save can store. *)
Theorem save_restore_raw
    (fs : list field) (storage : option item) (f : field) :
  f ∈ fs ->
  (forall formData : gmap jsstring jsstring,
     (~ blank (value f) ->
      collectStep formData f = Obj.set formData (name f) (value f)) /\
     (blank (value f) -> collectStep formData f = formData)) /\
  (NoDup (name <$> fs) ->
   (~ blank (value f) -> name f <> js "__proto__" ->
    exists m,
      saveFormData fs storage = Some (Json m) /\
      m !! name f = Some (value f) /\
      forall (fs' : list field) i g,
        fs' !! i = Some g -> name g = name f ->
        (loadFormData (saveFormData fs storage) fs').1 !! i
          = Some (set_value g (value f))) /\
   (blank (value f) ->
    collect fs !! name f = None /\
    (saveFormData fs storage = Some (Json (collect fs)) \/
     saveFormData fs storage = storage))).
Proof.
  unfold blank. intros Hf. split.
  - intros formData. unfold collectStep. split.
    + intros Hb. apply truthy_nonempty in Hb. by rewrite Hb.
    + intros Hb. by rewrite Hb.
  - intros Hnd. split.
    + intros Hb Hp. exists (collect fs).
      pose proof (collect_own fs f Hnd Hf Hb Hp) as Hown.
      split; [by apply (saveFormData_some_nonblank fs storage f) |].
      split; [done |].
      intros fs' i g Hg Hname. apply loadFormData_saved; [| done].
      by rewrite Hname.
    + intros Hb. split; [by apply collect_blank |].
      apply saveFormData_cases.
Qed.

(** A name typed with spaces around it, next to two blank fields. *)
Lemma save_restore_raw_witness :
  let fs := Samples.contactFields (js "  Alice ") [] (js "   ") in
  (loadFormData (saveFormData fs None) (Samples.contactFields [] [] [])).1
    !! 0%nat = Some (Samples.nameField (js "  Alice ")) /\
  collect fs !! js "message" = None.
Proof.
  cbv zeta.
  assert (Hnd : NoDup (name <$>
    Samples.contactFields (js "  Alice ") [] (js "   "))).
  { distinct_names. }
  split.
  - destruct (save_restore_raw
                (Samples.contactFields (js "  Alice ") [] (js "   ")) None
                (Samples.nameField (js "  Alice ")))
      as [_ Hraw]; [apply list_elem_of_here |].
    destruct (Hraw Hnd) as [Hsaved _].
    destruct Hsaved as (m & _ & _ & Hload); [by vm_compute | by vm_compute |].
    apply (Hload (Samples.contactFields [] [] []) 0%nat
             (Samples.nameField [])); reflexivity.
  - destruct (save_restore_raw
                (Samples.contactFields (js "  Alice ") [] (js "   ")) None
                (Samples.messageField (js "   ")))
      as [_ Hraw];
      [listed |].
    destruct (Hraw Hnd) as [_ Hblank].
    destruct Hblank as [Hnone _]; [reflexivity |]. exact Hnone.
Defined.

End RoundTrip.

Section NavFacts.
Import Str Nav Spec.

Lemma openMobileNav_agrees s : agrees (openMobileNav s).
Proof. reflexivity. Qed.

Lemma closeMobileNav_agrees s : agrees (closeMobileNav s).
Proof. reflexivity. Qed.

(** Every listener either leaves the menu alone or leaves it in
    agreement with the attribute. *)
Lemma step_agrees e s : step e s = s \/ agrees (step e s).
Proof.
  destruct e as [[|inMenu headerHeight [t|]|inMenu]|key|innerWidth]; simpl.
  - right. unfold onToggleClick. by destruct (menuOpen s).
  - right. by destruct inMenu.
  - destruct inMenu; simpl; [by left | by right].
  - destruct inMenu; simpl; [by left | by right].
  - unfold onKeyDown. destruct (Str.eqb key (js "Escape")); [by right | by left].
  - unfold onResize. destruct (768 <? innerWidth)%Z; [by right | by left].
Qed.

Lemma step_preserves_agrees e s : agrees s -> agrees (step e s).
Proof. intros H. destruct (step_agrees e s) as [-> | H']; done. Qed.

Lemma run_agrees es s : agrees s -> agrees (run es s).
Proof.
  revert s. induction es as [|e es IH]; intros s H; simpl; [done |].
  apply IH. by apply step_preserves_agrees.
Qed.

Lemma step_fiveTriggers e s :
  stateOf (step e s) = fiveTriggers e (stateOf s).
Proof.
  unfold stateOf.
  destruct e as [[|inMenu headerHeight [t|]|inMenu]|key|innerWidth]; simpl.
  - unfold onToggleClick. by destruct (menuOpen s).
  - by destruct inMenu.
  - by destruct inMenu.
  - by destruct inMenu.
  - unfold onKeyDown, Str.eqb.
    destruct (decide (key = js "Escape")) as [->|Hne].
    + by rewrite bool_decide_eq_true_2.
    + by rewrite bool_decide_eq_false_2.
  - unfold onResize.
    destruct (decide (768 < innerWidth)%Z) as [H|H].
    + apply Z.ltb_lt in H. by rewrite H.
    + apply Z.ltb_nlt in H. by rewrite H.
Qed.

(** The claim as worded fails: with the menu open, a click on an in-page
    link inside the menu, whose target exists, closes the menu, although
    it is none of the four triggers. *)
Lemma anchor_click_closes_menu :
  let e := Click (OnAnchor true 80%Z
                    (Some {| targetId := js "services";
                             offsetTop := 900%Z |})) in
  let s := openMobileNav initial in
  stateOf s = open /\
  stateOf (step e s) = closed /\
  stateOf (step e s) <> fourTriggers e (stateOf s).
Proof. cbv zeta. by repeat split. Qed.

(** C9, amended. The menu has two states and starts closed, in agreement
    with the toggle's aria-expanded attribute. Its state changes as the
    four triggers say (a toggle click flips it; a click outside both the
    toggle and the menu, the escape key and a resize above 768 close it)
    together with a fifth: a click on an in-page link whose target exists
    closes it. The listeners that initMobileNavigation registers follow
    the four triggers alone. Every event either changes nothing or leaves
    the attribute equal to the state, so the two agree after every run
    from the initial state. *)
Theorem menu_machine :
  (stateOf initial = closed /\ agrees initial) /\
  (forall e s, stateOf (step e s) = fiveTriggers e (stateOf s)) /\
  (forall e s, ownListener e = true ->
               stateOf (step e s) = fourTriggers e (stateOf s)) /\
  (forall e s, step e s = s \/ agrees (step e s)) /\
  (forall es, agrees (run es initial)).
Proof.
  split; [by split |]. split; [exact step_fiveTriggers |].
  split; [| split; [exact step_agrees |]].
  - intros e s He. rewrite step_fiveTriggers.
    by destruct e as [[|inMenu headerHeight [t|]|inMenu]|key|innerWidth].
  - intros es. by apply run_agrees.
Qed.

(** Open the menu, then press Escape. *)
Lemma menu_machine_witness :
  stateOf (step (KeyDown (js "Escape")) (step (Click OnToggle) initial))
    = closed.
Proof.
  destruct menu_machine as (_ & _ & H & _).
  rewrite (H (KeyDown (js "Escape"))) by reflexivity.
  rewrite (H (Click OnToggle)) by reflexivity.
  reflexivity.
Defined.

End NavFacts.

Section ValidatorCoverage.
Import Str RegExp Dom Validator Spec Terms.

Lemma fieldRules_email f :
  fieldRules f = (false, emailMessage) <-> emailFails f.
Proof.
  destruct messages_distinct as (Hr & He & Hl & Hre & Hrl & Hel).
  rewrite fieldRules_cases. cbv zeta. unfold emailFails.
  destruct (truthy (trim (value f))) eqn:Hv.
  - apply truthy_nonempty in Hv.
    destruct (kind f) as [t|] eqn:Hk.
    + destruct (Str.eqb t (js "email")) eqn:Ht; simpl.
      * apply bool_decide_eq_true in Ht. subst t.
        destruct (RegExp.test emailRegex (trim (value f))) eqn:Hm; simpl.
        -- apply emailRegex_shape in Hm. naive_solver.
        -- assert (~ emailShape (trim (value f))).
           { rewrite <- emailRegex_shape. congruence. }
           naive_solver.
      * apply bool_decide_eq_false in Ht. naive_solver.
    + destruct (len (trim (value f)) <? 10); naive_solver.
  - apply truthy_empty in Hv. destruct (required f); naive_solver.
Qed.

(** X1. The three rules never fail together: at most one of them fails for
    a field, so no later check of [validateField] overrides the message of
    an earlier one. The verdict is one of four, and it is "invalid, Please
    enter a valid email address." exactly when the field is an email input
    whose trimmed value is not empty and not of the address shape. *)
Theorem rules_exclusive (f : field) :
  ~ (requiredFails f /\ emailFails f) /\
  ~ (requiredFails f /\ lengthFails f) /\
  ~ (emailFails f /\ lengthFails f) /\
  (fieldRules f = (true, []) \/
   fieldRules f = (false, requiredMessage) \/
   fieldRules f = (false, emailMessage) \/
   fieldRules f = (false, lengthMessage)) /\
  (fieldRules f = (false, emailMessage) <-> emailFails f).
Proof.
  split; [| split; [| split; [| split]]].
  - intros [[_ H1] (_ & H2 & _)]. done.
  - intros [[_ H1] (_ & H2 & _)]. done.
  - intros [(H1 & _) (H2 & _)]. congruence.
  - rewrite fieldRules_cases. cbv zeta.
    destruct (truthy (trim (value f))), (kind f), (required f);
      repeat match goal with |- context [if ?b then _ else _] => destruct b end;
      auto.
  - apply fieldRules_email.
Qed.

Lemma trimStart_whitespace_app pre w :
  Forall (fun c => is_whitespace c = true) pre ->
  trimStart (pre ++ w) = trimStart w.
Proof. induction 1 as [|c pre Hc _ IH]; simpl; [done | by rewrite Hc]. Qed.

Lemma trimStart_whitespace pre :
  Forall (fun c => is_whitespace c = true) pre -> trimStart pre = [].
Proof.
  intros H. rewrite <- (app_nil_r pre). by rewrite trimStart_whitespace_app.
Qed.

Lemma trimStart_nil_whitespace v :
  trimStart v = [] -> Forall (fun c => is_whitespace c = true) v.
Proof.
  induction v as [|c v IH]; simpl; [constructor |].
  destruct (is_whitespace c) eqn:Hc; [| done].
  intros H. constructor; [done | by apply IH].
Qed.

Lemma trimStart_app_kept v post :
  trimStart v <> [] -> trimStart (v ++ post) = trimStart v ++ post.
Proof.
  induction v as [|c v IH]; simpl; [done |].
  destruct (is_whitespace c); [apply IH | done].
Qed.

Lemma trimEnd_app_whitespace w post :
  Forall (fun c => is_whitespace c = true) post ->
  trimEnd (w ++ post) = trimEnd w.
Proof.
  intros H. unfold trimEnd. rewrite rev_app_distr.
  rewrite trimStart_whitespace_app; [done |].
  apply Forall_forall. intros c Hc. rewrite Forall_forall in H.
  apply H. apply list_elem_of_In. apply list_elem_of_In in Hc.
  by apply in_rev.
Qed.

(** Whitespace around a value is invisible to [trim]. *)
Lemma trim_padding pre v post :
  Forall (fun c => is_whitespace c = true) pre ->
  Forall (fun c => is_whitespace c = true) post ->
  trim (pre ++ v ++ post) = trim v.
Proof.
  intros Hpre Hpost. unfold trim.
  rewrite trimStart_whitespace_app by done.
  destruct (trimStart v) as [|c w] eqn:Hv.
  - apply trimStart_nil_whitespace in Hv.
    rewrite trimStart_whitespace_app by done.
    by rewrite trimStart_whitespace.
  - rewrite trimStart_app_kept by congruence.
    rewrite Hv. by apply trimEnd_app_whitespace.
Qed.

(** X2. Validation sees a value only through its trim: putting whitespace
    before and after the value of a field changes neither the verdict nor
    the message. *)
Theorem fieldRules_padding (f : field) (pre post : jsstring) :
  Forall (fun c => is_whitespace c = true) pre ->
  Forall (fun c => is_whitespace c = true) post ->
  fieldRules (set_value f (pre ++ value f ++ post)) = fieldRules f.
Proof.
  intros Hpre Hpost. rewrite !fieldRules_cases. cbv zeta. simpl.
  by rewrite trim_padding.
Qed.

(** A short message, then the same between a tab and two spaces. *)
Lemma fieldRules_padding_witness :
  fieldRules (Samples.messageField ([9] ++ js "Hi there" ++ [32; 32]))
    = fieldRules (Samples.messageField (js "Hi there")).
Proof.
  apply (fieldRules_padding (Samples.messageField (js "Hi there"))
           [9] [32; 32]).
  - repeat constructor.
  - repeat constructor.
Defined.

Lemma validateField_region_lookup f es id :
  (validateField f es).1.2 !! id = (fun e => regionAfterField id e f) <$> es !! id.
Proof.
  rewrite validateField_regions. unfold regionAfterField.
  destruct (decide (id = errorId f)) as [->|Hne].
  - rewrite showFieldError_region. by rewrite fieldRules_message.
  - rewrite showFieldError_other by done. by destruct (es !! id).
Qed.

(** What a region holds after the [forEach] of [validateForm]. *)
Lemma regionsAfter_lookup fs es id :
  regionsAfter fs es !! id
    = (fun e => fold_left (regionAfterField id) fs e) <$> es !! id.
Proof.
  revert es. induction fs as [|f fs IH]; intros es; simpl.
  - by destruct (es !! id).
  - unfold regionsAfter in *. simpl. rewrite IH, validateField_region_lookup.
    by destruct (es !! id).
Qed.

Lemma regionAfterField_absorbs id fs :
  (forall e, fold_left (regionAfterField id) fs e = e) \/
  (exists r, forall e, fold_left (regionAfterField id) fs e = r).
Proof.
  induction fs as [|f fs IH] using rev_ind; [by left |].
  assert (Hstep : forall e,
    fold_left (regionAfterField id) (fs ++ [f]) e
      = regionAfterField id (fold_left (regionAfterField id) fs e) f).
  { intros e. by rewrite fold_left_app. }
  destruct (decide (id = errorId f)) as [Heq|Hne].
  - right. eexists. intros e. rewrite Hstep.
    unfold regionAfterField at 1. by rewrite decide_True.
  - destruct IH as [IH|[r IH]].
    + left. intros e. rewrite Hstep.
      unfold regionAfterField at 1. by rewrite decide_False, IH.
    + right. exists r. intros e. rewrite Hstep.
      unfold regionAfterField at 1. by rewrite decide_False, IH.
Qed.

Lemma regionAfterField_validated id (fs : list field) e :
  fold_left (regionAfterField id)
    ((fun f => set_inputError f (negb (fieldRules f).1)) <$> fs) e
  = fold_left (regionAfterField id) fs e.
Proof.
  revert e. induction fs as [|f fs IH]; intros e; simpl; [done |].
  by rewrite IH.
Qed.

Lemma forallb_validated (fs : list field) :
  forallb (fun f => (fieldRules f).1)
    ((fun f => set_inputError f (negb (fieldRules f).1)) <$> fs)
  = forallb (fun f => (fieldRules f).1) fs.
Proof.
  induction fs as [|f fs IH]; [done |].
  rewrite fmap_cons. cbn [forallb]. by rewrite IH.
Qed.

(** X3. Validating the form a second time changes nothing: run on the
    fields and error regions that [validateForm] left, it leaves the same
    fields and the same regions and returns the same result. *)
Theorem validateForm_stable
    (fs : list field) (es : gmap jsstring errorElement) :
  let out := validateForm fs es in
  validateForm out.1.1 out.1.2 = out.
Proof.
  cbv zeta. unfold validateForm. rewrite !validateFormLoop_unfold.
  cbn [fst snd]. rewrite forallb_validated.
  f_equal. f_equal.
  - rewrite <- list_fmap_compose. by apply list_fmap_ext.
  - apply map_eq. intros id. rewrite !regionsAfter_lookup.
    rewrite <- option_fmap_compose. destruct (es !! id) as [e|]; [| done].
    simpl. f_equal. rewrite regionAfterField_validated.
    destruct (regionAfterField_absorbs id fs) as [H|[r H]]; by rewrite !H.
Qed.

(** X4. [validateForm] changes nothing of a field but its error class, and
    among the error regions only those of the form's fields: it creates
    and removes no region, and a region that belongs to no field of the
    form is left as it was. *)
Theorem validateForm_frame
    (fs : list field) (es : gmap jsstring errorElement) :
  let out := validateForm fs es in
  length out.1.1 = length fs /\
  (forall i f, fs !! i = Some f ->
     exists g, out.1.1 !! i = Some g /\ sameControl f g) /\
  dom out.1.2 = dom es /\
  (forall id, (forall f, f ∈ fs -> errorId f <> id) ->
     out.1.2 !! id = es !! id).
Proof.
  cbv zeta. unfold validateForm. rewrite validateFormLoop_unfold. simpl.
  split; [| split; [| split]].
  - by rewrite length_fmap.
  - intros i f Hi. eexists. rewrite list_lookup_fmap, Hi. simpl.
    split; [done |]. by repeat split.
  - apply set_eq. intros id. rewrite !elem_of_dom, regionsAfter_lookup.
    by destruct (es !! id); rewrite <- !not_eq_None_Some.
  - apply regionsAfter_other.
Qed.

(** The contact form, and a region that is not one of its fields'. *)
Lemma validateForm_frame_witness :
  let es := <[js "phone-error" := Samples.blankRegion]> Samples.contactRegions in
  (validateForm (Samples.contactFields [] [] []) es).1.2 !! js "phone-error"
    = Some Samples.blankRegion.
Proof.
  cbv zeta.
  destruct (validateForm_frame (Samples.contactFields [] [] [])
              (<[js "phone-error" := Samples.blankRegion]>
                 Samples.contactRegions)) as (_ & _ & _ & H).
  rewrite H; [reflexivity |].
  intros f Hf. unfold Samples.contactFields in Hf.
  repeat (apply elem_of_cons in Hf as [->|Hf]; [by vm_compute |]).
  by apply elem_of_nil in Hf.
Defined.

(** X22. The result of [validateForm] is what the form shows: it returns
    true exactly when no field is left with the error class, and false
    exactly when at least one field is. *)
Theorem validateForm_result_shown
    (fs : list field) (es : gmap jsstring errorElement) :
  let out := validateForm fs es in
  (out.2 = true <-> Forall (fun g => inputError g = false) out.1.1) /\
  (out.2 = false <-> Exists (fun g => inputError g = true) out.1.1).
Proof.
  cbv zeta. unfold validateForm. rewrite validateFormLoop_unfold.
  cbn [fst snd andb].
  induction fs as [|f fs [IH1 IH2]].
  - simpl. split; split; try done. intros H. inversion H.
  - rewrite fmap_cons. cbn [forallb].
    rewrite Forall_cons, Exists_cons, andb_true_iff, andb_false_iff.
    rewrite IH1, IH2. simpl.
    destruct (fieldRules f).1; simpl; naive_solver.
Qed.

End ValidatorCoverage.

Section FormCoverage.
Import Str Dom Validator Persistence Submitter Handlers FormHandling Spec Terms.

Lemma handle_input_page p i f typed :
  formInputs p !! i = Some f ->
  handle (InputEvent i typed) p =
    let fe := clearFieldError (set_value f typed) (errorElements p) in
    let p1 := set_fields p (<[i := fe.1]> (formInputs p)) fe.2 in
    set_localStorage p1 (saveFormData (formInputs p1) (localStorage p1)).
Proof. intros H. simpl. by rewrite H. Qed.

(** X5. An input event puts the typed text into the edited field and hides
    that field's error at once, whatever was typed: the error class is
    taken off and the field's own error region, if there is one, is emptied
    and hidden. No other field and no other region changes, and the
    snapshot is saved again from the fields as they now are. *)
Theorem input_clears_error (p : page) (i : nat) (f : field) (typed : jsstring) :
  formInputs p !! i = Some f ->
  let p' := handle (InputEvent i typed) p in
  formInputs p' !! i = Some (set_inputError (set_value f typed) false) /\
  (forall j, j <> i -> formInputs p' !! j = formInputs p !! j) /\
  errorElements p' !! errorId f
    = (fun _ => {| textContent := []; errorShow := false |})
        <$> errorElements p !! errorId f /\
  (forall id, id <> errorId f ->
     errorElements p' !! id = errorElements p !! id) /\
  localStorage p' = saveFormData (formInputs p') (localStorage p).
Proof.
  intros Hi. cbv zeta. rewrite (handle_input_page p i f typed Hi).
  cbv zeta. simpl formInputs. simpl errorElements. simpl localStorage.
  split; [| split; [| split; [| split]]].
  - apply list_lookup_insert_eq. by apply lookup_lt_Some in Hi.
  - intros j Hj. by apply list_lookup_insert_ne.
  - apply (showFieldError_region (set_value f typed) []).
  - intros id Hid. by apply (showFieldError_other (set_value f typed) []).
  - reflexivity.
Qed.

(** A malformed address typed into the email field that showed an error. *)
Lemma input_clears_error_witness :
  let p := Samples.contactPage (js "post") (js "Alice") [] [] None in
  formInputs (handle (InputEvent 1 (js "not-an-email")) p) !! 1%nat
    = Some (Samples.emailField (js "not-an-email")).
Proof.
  cbv zeta.
  apply (input_clears_error
           (Samples.contactPage (js "post") (js "Alice") [] [] None)
           1 (Samples.emailField []) (js "not-an-email")).
  reflexivity.
Defined.

Lemma handle_input_names p i f typed :
  formInputs p !! i = Some f ->
  name <$> formInputs (handle (InputEvent i typed) p) = name <$> formInputs p.
Proof.
  intros Hi. rewrite (handle_input_page p i f typed Hi). cbv zeta.
  simpl formInputs. rewrite list_fmap_insert. simpl.
  apply list_insert_id. by rewrite list_lookup_fmap, Hi.
Qed.

Lemma input_fields_after p i f typed :
  formInputs p !! i = Some f ->
  formInputs (handle (InputEvent i typed) p) !! i
    = Some (set_inputError (set_value f typed) false) /\
  localStorage (handle (InputEvent i typed) p)
    = saveFormData (formInputs (handle (InputEvent i typed) p))
        (localStorage p).
Proof.
  intros Hi. rewrite (handle_input_page p i f typed Hi). cbv zeta.
  simpl formInputs. simpl localStorage. split; [| done].
  apply list_lookup_insert_eq. by apply lookup_lt_Some in Hi.
Qed.

(** X6. What is typed survives a reload: in a form with distinct field
    names, after an input event that leaves a non-blank text in a field not
    named [__proto__], loading the stored snapshot into any form writes that
    text, as typed, into the field of the same name. *)
Theorem typed_survives_reload
    (p : page) (i : nat) (f : field) (typed : jsstring)
    (fs' : list field) (j : nat) (g : field) :
  NoDup (name <$> formInputs p) ->
  formInputs p !! i = Some f ->
  name f <> js "__proto__" ->
  ~ blank typed ->
  fs' !! j = Some g -> name g = name f ->
  (loadFormData (localStorage (handle (InputEvent i typed) p)) fs').1 !! j
    = Some (set_value g typed).
Proof.
  intros Hnd Hi Hp Hb Hj Hname.
  pose proof (handle_input_names p i f typed Hi) as Hnames.
  destruct (input_fields_after p i f typed Hi) as [Hfi Hst].
  rewrite Hst. apply loadFormData_saved; [| done].
  rewrite Hname.
  apply (collect_own _ (set_inputError (set_value f typed) false)).
  - by rewrite Hnames.
  - by apply list_elem_of_lookup_2 with i.
  - exact Hb.
  - exact Hp.
Qed.

(** A name typed with a trailing space, then a reload of the empty form. *)
Lemma typed_survives_reload_witness :
  let p := Samples.contactPage (js "post") [] [] [] None in
  (loadFormData (localStorage (handle (InputEvent 0 (js "Alice ")) p))
     (Samples.contactFields [] [] [])).1 !! 0%nat
    = Some (Samples.nameField (js "Alice ")).
Proof.
  cbv zeta.
  apply (typed_survives_reload
           (Samples.contactPage (js "post") [] [] [] None)
           0 (Samples.nameField []) (js "Alice ")
           (Samples.contactFields [] [] []) 0 (Samples.nameField [])).
  - distinct_names.
  - reflexivity.
  - by vm_compute.
  - by vm_compute.
  - reflexivity.
  - reflexivity.
Defined.

Lemma validateField_keeps f es :
  sameControl f (validateField f es).1.1.
Proof. rewrite validateField_field. by repeat split. Qed.

(** X7. Blur and input events touch the fields, their error regions and
    the stored snapshot only: they leave the success region as it is, and
    the failure region too on a page where no field is named "form" (the
    error region of such a field would be the failure region itself); they
    write nothing to the console, leave the page where it is scrolled, and
    keep the names of the fields. A blur, moreover, changes no value and
    writes nothing to storage. *)
Theorem handlers_frame (e : fieldEvent) (p : page) :
  let p' := handle e p in
  formSuccess p' = formSuccess p /\
  ((forall f, f ∈ formInputs p -> name f <> js "form") ->
   formError p' = formError p) /\
  scrolledIntoView p' = scrolledIntoView p /\
  console p' = console p /\
  name <$> formInputs p' = name <$> formInputs p /\
  (forall i, e = Blur i ->
     localStorage p' = localStorage p /\
     value <$> formInputs p' = value <$> formInputs p).
Proof.
  cbv zeta. destruct e as [i|i typed].
  - simpl. destruct (formInputs p !! i) as [f|] eqn:Hi.
    + pose proof (validateField_keeps f (errorElements p)) as Hk.
      destruct (validateField f (errorElements p)) as [[f' es'] valid].
      simpl in Hk. destruct Hk as (Hn & _ & _ & _ & Hv). simpl.
      repeat split; try done.
      * rewrite list_fmap_insert, Hn. apply list_insert_id.
        by rewrite list_lookup_fmap, Hi.
      * rewrite list_fmap_insert, Hv. apply list_insert_id.
        by rewrite list_lookup_fmap, Hi.
    + by repeat split.
  - destruct (formInputs p !! i) as [f|] eqn:Hi.
    + pose proof (handle_input_names p i f typed Hi) as Hnames.
      rewrite (handle_input_page p i f typed Hi) in *.
      by repeat split.
    + simpl. rewrite Hi. by repeat split.
Qed.

(** A blur of the empty, required name field. *)
Lemma handlers_frame_witness :
  let p := Samples.contactPage (js "post") [] [] []
             (Some (Json {[ js "name" := js "Alice" ]})) in
  formError (handle (Blur 0) p) = formError p /\
  localStorage (handle (Blur 0) p) = localStorage p /\
  value <$> formInputs (handle (Blur 0) p) = value <$> formInputs p.
Proof.
  cbv zeta.
  destruct (handlers_frame (Blur 0)
              (Samples.contactPage (js "post") [] [] []
                 (Some (Json {[ js "name" := js "Alice" ]}))))
    as (_ & Hfe & _ & _ & _ & H).
  split; [| by apply (H 0%nat)].
  apply Hfe. intros f Hf. simpl in Hf. unfold Samples.contactFields in Hf.
  repeat (apply elem_of_cons in Hf as [->|Hf]; [by vm_compute |]).
  by apply elem_of_nil in Hf.
Defined.









End FormCoverage.

Section PersistenceCoverage.
Import Str Dom Persistence Spec Terms.

Lemma restore_cases m f :
  restore m f = f \/
  (exists v, m !! name f = Some v /\ v <> [] /\
             restore m f = set_value f v) \/
  (exists text, m !! name f = None /\ Obj.inherited (name f) = Some text /\
                restore m f = set_value f text).
Proof.
  unfold restore, Obj.get. destruct (m !! name f) as [v|]; simpl.
  - destruct (truthy v) eqn:Hv; [| by left].
    right. left. exists v. by rewrite <- truthy_nonempty.
  - destruct (Obj.inherited (name f)) as [text|]; simpl; [| by left].
    right. right. by exists text.
Qed.

Lemma restore_restore m f : restore m (restore m f) = restore m f.
Proof.
  unfold restore at 2.
  destruct (Obj.toBoolean (Obj.get m (name f))) eqn:Hb; [| done].
  unfold restore. simpl. by rewrite Hb.
Qed.

(** X11. [loadFormData] keeps the number of fields and changes nothing of
    a field but its value. A field is left exactly as it was unless the
    stored item parses and either holds a non-empty string under the
    field's name, which the field then gets, or holds no entry of that
    name while the name is that of a member every object inherits
    ([constructor], [toString], [__proto__] and the like), in which case
    the field gets that member's text. With no stored item, an item that
    does not parse, an empty entry, or no entry under an ordinary name,
    nothing is written. Loading a second time changes nothing more. *)
Theorem loadFormData_frame (storage : option item) (fs : list field) :
  let out := (loadFormData storage fs).1 in
  length out = length fs /\
  (forall i f, fs !! i = Some f ->
     exists g, out !! i = Some g /\ sameButValue f g /\
       (g = f \/
        (exists m v, storage = Some (Json m) /\ m !! name f = Some v /\
                     v <> [] /\ g = set_value f v) \/
        (exists m text, storage = Some (Json m) /\ m !! name f = None /\
                        Obj.inherited (name f) = Some text /\
                        g = set_value f text))) /\
  (forall m i f, storage = Some (Json m) -> fs !! i = Some f ->
     (m !! name f = None /\ Obj.inherited (name f) = None) \/
     m !! name f = Some [] ->
     out !! i = Some f) /\
  (forall m i f text, storage = Some (Json m) -> fs !! i = Some f ->
     m !! name f = None -> Obj.inherited (name f) = Some text ->
     out !! i = Some (set_value f text)) /\
  (loadFormData storage out).1 = out.
Proof.
  cbv zeta. destruct storage as [[m|]|]; simpl.
  - split; [by rewrite length_fmap |]. split; [| split; [| split]].
    + intros i f Hi. exists (restore m f).
      rewrite list_lookup_fmap, Hi. split; [done |].
      destruct (restore_cases m f)
        as [->|[(v & Hm & Hv & ->)|(text & Hm & Hi' & ->)]].
      * split; [by repeat split | by left].
      * split; [by repeat split |]. right. left. by exists m, v.
      * split; [by repeat split |]. right. right. by exists m, text.
    + intros m' i f [= <-] Hi Hm. rewrite list_lookup_fmap, Hi. simpl.
      f_equal. unfold restore, Obj.get.
      destruct Hm as [[-> ->] | ->]; done.
    + intros m' i f text [= <-] Hi Hm Hin.
      rewrite list_lookup_fmap, Hi. simpl. f_equal.
      unfold restore, Obj.get. by rewrite Hm, Hin.
    + rewrite <- list_fmap_compose. apply list_fmap_ext.
      intros i f _. apply restore_restore.
  - split; [done |]. split; [| split; [done | split; [done | done]]].
    intros i f Hi. exists f. split; [done |].
    split; [by repeat split | by left].
  - split; [done |]. split; [| split; [done | split; [done | done]]].
    intros i f Hi. exists f. split; [done |].
    split; [by repeat split | by left].
Qed.

(** A snapshot with an empty entry for the name and none for the email;
    and a control named "constructor" over a snapshot without it. *)
Lemma loadFormData_frame_witness :
  (loadFormData (Some (Json {[ js "name" := [] ]}))
     (Samples.contactFields (js "Bob") (js "b@c.de") [])).1
  = Samples.contactFields (js "Bob") (js "b@c.de") [] /\
  (loadFormData (Some (Json {[ js "name" := js "Alice" ]}))
     [Samples.constructorField []]).1 !! 0%nat
  = Some (Samples.constructorField
            (js "function Object() { [native code] }")).
Proof.
  split.
  - destruct (loadFormData_frame (Some (Json {[ js "name" := [] ]}))
                (Samples.contactFields (js "Bob") (js "b@c.de") []))
      as (Hlen & _ & Hkeep & _).
    apply list_eq. intros i.
    destruct (Samples.contactFields (js "Bob") (js "b@c.de") [] !! i)
      as [f|] eqn:Hi.
    + apply (Hkeep {[ js "name" := [] ]} i f eq_refl Hi).
      destruct i as [|[|[|i]]]; simpl in Hi; try done;
        injection Hi as <-; vm_compute; eauto.
    + apply lookup_ge_None. rewrite Hlen. by apply lookup_ge_None.
  - destruct (loadFormData_frame
                (Some (Json {[ js "name" := js "Alice" ]}))
                [Samples.constructorField []])
      as (_ & _ & _ & Hinh & _).
    apply (Hinh {[ js "name" := js "Alice" ]} 0%nat
             (Samples.constructorField [])
             (js "function Object() { [native code] }"));
      by vm_compute.
Defined.

Lemma collectFrom_blank_named fs acc k :
  (forall g, g ∈ fs -> name g = k -> trim (value g) = []) ->
  fold_left collectStep fs acc !! k = acc !! k.
Proof.
  revert acc. induction fs as [|g fs IH]; intros acc H; simpl; [done |].
  rewrite IH.
  - unfold collectStep. destruct (truthy (trim (value g))) eqn:Hg; [| done].
    destruct (decide (name g = k)) as [Hk|Hk].
    + apply truthy_nonempty in Hg. exfalso. apply Hg.
      apply H; [apply list_elem_of_here | done].
    + by rewrite set_lookup_other.
  - intros h Hh. apply H. by apply list_elem_of_further.
Qed.

(** X12. Without any assumption on the names: the collected snapshot never
    has an entry named [__proto__], and it has an entry under any other
    name exactly when some field of that name has a non-blank value. When
    several fields share such a name the last non-blank one wins: the entry
    is its raw value, and a reload writes that value into every field of
    the name. *)
Theorem snapshot_entries (fs : list field) :
  (forall k, is_Some (collect fs !! k) <->
             k <> js "__proto__" /\
             exists f, f ∈ fs /\ name f = k /\ ~ blank (value f)) /\
  (forall fs1 f fs2,
     fs = fs1 ++ f :: fs2 -> ~ blank (value f) ->
     name f <> js "__proto__" ->
     (forall g, g ∈ fs2 -> name g = name f -> blank (value g)) ->
     collect fs !! name f = Some (value f) /\
     forall storage (fs' : list field) j g,
       fs' !! j = Some g -> name g = name f ->
       (loadFormData (saveFormData fs storage) fs').1 !! j
         = Some (set_value g (value f))).
Proof.
  unfold blank. split.
  - intros k. split.
    + intros [v Hv]. split.
      * intros ->. by rewrite collect_proto in Hv.
      * apply collect_Some in Hv as (f & Hf & Hn & _ & Hb). by exists f.
    + intros (Hp & f & Hf & <- & Hb). rewrite collect_fold.
      by apply collectFrom_nonblank.
  - intros fs1 f fs2 -> Hb Hp Hlater.
    assert (Hown : collect (fs1 ++ f :: fs2) !! name f = Some (value f)).
    { rewrite collect_fold, fold_left_app. simpl.
      rewrite collectFrom_blank_named by done.
      unfold collectStep. apply truthy_nonempty in Hb.
      by rewrite Hb, set_lookup_own. }
    split; [done |].
    intros storage fs' j g Hj Hname. apply loadFormData_saved; [| done].
    by rewrite Hname.
Qed.

(** Two controls named "name": the later one wins. *)
Lemma snapshot_entries_witness :
  collect [Samples.nameField (js "Alice"); Samples.nameField (js "Bob");
           Samples.emailField []] !! js "name" = Some (js "Bob").
Proof.
  destruct (snapshot_entries
              [Samples.nameField (js "Alice"); Samples.nameField (js "Bob");
               Samples.emailField []]) as [_ H].
  destruct (H [Samples.nameField (js "Alice")] (Samples.nameField (js "Bob"))
              [Samples.emailField []]) as [Hown _].
  - reflexivity.
  - by vm_compute.
  - by vm_compute.
  - intros g Hg. apply elem_of_cons in Hg as [->|Hg]; [by vm_compute |].
    by apply elem_of_nil in Hg.
  - exact Hown.
Defined.

Lemma set_value_back (f : field) : set_value (set_value f []) (value f) = f.
Proof. by destruct f. Qed.

Lemma inherited_proto k : Obj.inherited k = None -> k <> js "__proto__".
Proof. intros H ->. by vm_compute in H. Qed.

Lemma restore_emptied fs f :
  NoDup (name <$> fs) -> f ∈ fs -> Obj.inherited (name f) = None ->
  restore (collect fs) (set_value f []) = dropBlank f.
Proof.
  intros Hnd Hf Hin. unfold restore, dropBlank, Obj.get. simpl.
  destruct (decide (trim (value f) = [])) as [Hb|Hb].
  - by rewrite (collect_blank fs f Hnd Hf Hb), Hin.
  - rewrite (collect_own fs f Hnd Hf Hb (inherited_proto _ Hin)). simpl.
    rewrite (trim_nil_nonblank _ Hb). apply set_value_back.
Qed.

Lemma collectStep_dropBlank acc f :
  collectStep acc (dropBlank f) = collectStep acc f.
Proof.
  unfold dropBlank. destruct (decide (trim (value f) = [])) as [Hb|Hb];
    [| done].
  unfold collectStep. simpl. by rewrite Hb.
Qed.

Lemma collect_dropBlank fs : collect (dropBlank <$> fs) = collect fs.
Proof.
  rewrite !collect_fold. generalize (∅ : gmap jsstring jsstring).
  induction fs as [|f fs IH]; intros acc; simpl; [done |].
  by rewrite collectStep_dropBlank, IH.
Qed.

(** X13. Reload round trip of a whole form. In a form whose field names
    are distinct and none of them the name of a member every object
    inherits, and of which some field is not blank, saving and then
    loading into the same form with every value emptied gives the form
    back with its whitespace-only values emptied and everything else as it
    was; and saving that reloaded form stores the very snapshot that was
    loaded. *)
Theorem reload_round_trip (fs : list field) (storage : option item) :
  NoDup (name <$> fs) ->
  (forall f, f ∈ fs -> Obj.inherited (name f) = None) ->
  (exists f, f ∈ fs /\ ~ blank (value f)) ->
  let reloaded := (loadFormData (saveFormData fs storage) (emptied fs)).1 in
  reloaded = dropBlank <$> fs /\
  (forall storage', saveFormData reloaded storage' = saveFormData fs storage).
Proof.
  unfold blank. intros Hnd Hin (f & Hf & Hb). cbv zeta.
  pose proof (inherited_proto _ (Hin f Hf)) as Hp.
  rewrite (saveFormData_some_nonblank fs storage f Hf Hb Hp). simpl.
  assert (E : restore (collect fs) <$> emptied fs = dropBlank <$> fs).
  { unfold emptied. rewrite <- list_fmap_compose.
    apply list_fmap_ext. intros i g Hg. simpl.
    assert (g ∈ fs) by (by apply list_elem_of_lookup_2 with i).
    apply restore_emptied; [done | done | by apply Hin]. }
  rewrite E. split; [done |].
  intros storage'. unfold saveFormData. rewrite collect_dropBlank.
  destruct (collectFrom_nonblank fs ∅ f Hf Hb Hp) as [v Hv].
  rewrite <- collect_fold in Hv.
  destruct (size (collect fs)) eqn:Hsz; [| done].
  apply map_size_empty_iff in Hsz. by rewrite Hsz, lookup_empty in Hv.
Qed.

(** A name with a space before it, a whitespace-only email, no message. *)
Lemma reload_round_trip_witness :
  (loadFormData
     (saveFormData (Samples.contactFields (js " Alice") (js "  ") []) None)
     (Samples.contactFields [] [] [])).1
  = Samples.contactFields (js " Alice") [] [].
Proof.
  destruct (reload_round_trip
              (Samples.contactFields (js " Alice") (js "  ") []) None)
    as [H _].
  - distinct_names.
  - intros f Hf. unfold Samples.contactFields in Hf.
    repeat (apply elem_of_cons in Hf as [->|Hf]; [by vm_compute |]).
    by apply elem_of_nil in Hf.
  - exists (Samples.nameField (js " Alice")).
    split; [listed | by vm_compute].
  - exact H.
Defined.

End PersistenceCoverage.

Section NavCoverage.
Import Str Nav Spec Terms.

Lemma step_icon e s : step e s = s \/ iconMatches (step e s).
Proof.
  destruct e as [[|inMenu headerHeight [t|]|inMenu]|key|innerWidth]; simpl.
  - right. unfold onToggleClick. by destruct (menuOpen s).
  - right. by destruct inMenu.
  - destruct inMenu; simpl; [by left | by right].
  - destruct inMenu; simpl; [by left | by right].
  - unfold onKeyDown. destruct (Str.eqb key (js "Escape")); [by right | by left].
  - unfold onResize. destruct (768 <? innerWidth)%Z; [by right | by left].
Qed.

(** X14. The toggle's icon follows the menu: every event either changes
    nothing or leaves the three lines drawn as a cross exactly when the
    menu is open, so from a page where icon and menu match they match
    after every sequence of events. *)
Theorem icon_follows_menu :
  (forall e s, step e s = s \/ iconMatches (step e s)) /\
  (forall es s, iconMatches s -> iconMatches (run es s)).
Proof.
  split; [exact step_icon |].
  induction es as [|e es IH]; intros s Hs; simpl; [done |].
  apply IH. by destruct (step_icon e s) as [-> | H'].
Qed.

(** Open the menu, click a link in it, open it again. *)
Lemma icon_follows_menu_witness :
  iconMatches
    (run [Click OnToggle;
          Click (OnAnchor true 80%Z
                   (Some {| targetId := js "about"; offsetTop := 400%Z |}));
          Click OnToggle] initial).
Proof.
  destruct icon_follows_menu as [_ H]. apply H. by repeat split.
Defined.

Lemma toggle_flips s :
  menuOpen (step (Click OnToggle) s) = negb (menuOpen s).
Proof. simpl. unfold onToggleClick. by destruct (menuOpen s). Qed.

(** X15. Toggle clicks undo each other: on a menu whose attribute and icon
    match its state, two toggle clicks give back exactly the state before
    them, and after n toggle clicks the menu is open exactly when it was
    closed and n is odd, or was open and n is even. *)
Theorem toggle_twice :
  (forall s, agrees s -> iconMatches s ->
             step (Click OnToggle) (step (Click OnToggle) s) = s) /\
  (forall n s,
     menuOpen (run (replicate n (Click OnToggle)) s)
       = xorb (menuOpen s) (Nat.odd n)).
Proof.
  split.
  - intros [o a l0 l1 l2 sc fo]. unfold agrees, iconMatches. simpl.
    unfold onToggleClick, onDocumentClick. simpl.
    destruct o; simpl; intros -> (-> & -> & ->); reflexivity.
  - induction n as [|n IH]; intros s.
    + simpl. by destruct (menuOpen s).
    + change (run (replicate (S n) (Click OnToggle)) s)
        with (run (replicate n (Click OnToggle)) (step (Click OnToggle) s)).
      rewrite IH, toggle_flips, Nat.odd_succ, <- Nat.negb_odd.
      by destruct (menuOpen s), (Nat.odd n).
Qed.

(** The closed menu of the initial page, toggled twice. *)
Lemma toggle_twice_witness :
  step (Click OnToggle) (step (Click OnToggle) initial) = initial.
Proof.
  destruct toggle_twice as [H _]. apply H; by repeat split.
Defined.

(** X16. Scrolling and focus belong to the in-page links: an event other
    than a click on a link whose target exists changes neither the scroll
    position nor the focus. Such a click scrolls to the target's offset
    less the header height and 20, focuses the target and leaves the menu
    closed. On a link whose target is missing the link's listener does
    nothing, and the click counts as any other click at that place. *)
Theorem links_scroll_and_focus :
  (forall e s,
     (forall inMenu headerHeight t,
        e <> Click (OnAnchor inMenu headerHeight (Some t))) ->
     scrollTop (step e s) = scrollTop s /\ focused (step e s) = focused s) /\
  (forall inMenu headerHeight t s,
     let s' := step (Click (OnAnchor inMenu headerHeight (Some t))) s in
     scrollTop s' = (offsetTop t - headerHeight - 20)%Z /\
     focused s' = Some (targetId t) /\
     menuOpen s' = false /\ agrees s') /\
  (forall inMenu headerHeight s,
     step (Click (OnAnchor inMenu headerHeight None)) s
       = step (Click (Elsewhere inMenu)) s).
Proof.
  split; [| split].
  - intros e s Hne.
    destruct e as [[|inMenu headerHeight [t|]|inMenu]|key|innerWidth]; simpl.
    + unfold onToggleClick. by destruct (menuOpen s).
    + by destruct (Hne inMenu headerHeight t).
    + by destruct inMenu.
    + by destruct inMenu.
    + unfold onKeyDown. by destruct (Str.eqb key (js "Escape")).
    + unfold onResize. by destruct (768 <? innerWidth)%Z.
  - intros inMenu headerHeight t s. cbv zeta. simpl. by destruct inMenu.
  - done.
Qed.

(** The escape key on a page scrolled to 350 with a heading focused. *)
Lemma links_scroll_and_focus_witness :
  let s := {| menuOpen := true; ariaExpanded := js "true";
              line0Transform := []; line1Opacity := []; line2Transform := [];
              scrollTop := 350%Z; focused := Some (js "about") |} in
  scrollTop (step (KeyDown (js "Escape")) s) = 350%Z /\
  focused (step (KeyDown (js "Escape")) s) = Some (js "about").
Proof.
  cbv zeta. destruct links_scroll_and_focus as [H _]. by apply H.
Defined.

End NavCoverage.

Section AnimationsCoverage.
Import Animations.

Lemma callback_fadeIn entries st x :
  x ∈ fadeIn (callback entries st) <->
  x ∈ fadeIn st \/
  exists e, e ∈ entries /\ target e = x /\ isIntersecting e = true.
Proof.
  revert st. induction entries as [|e entries IH]; intros st.
  - simpl. split; [by left |]. intros [H|(e & He & _)]; [done |].
    by apply elem_of_nil in He.
  - change (callback (e :: entries) st) with (callback entries (onEntry st e)).
    rewrite IH. unfold onEntry. split.
    + intros [H|(e' & He' & Ht & Hi)].
      * destruct (isIntersecting e) eqn:Hie; simpl in H; [| by left].
        apply elem_of_union in H as [H|H]; [by left |].
        apply elem_of_singleton in H. right. exists e.
        split; [apply list_elem_of_here | done].
      * right. exists e'. split; [by apply list_elem_of_further | done].
    + intros [H|(e' & He' & Ht & Hi)].
      * left. destruct (isIntersecting e); simpl; set_solver.
      * apply elem_of_cons in He' as [->|He'].
        -- left. rewrite Hi. simpl. set_solver.
        -- right. by exists e'.
Qed.

Lemma callback_observed entries st x :
  x ∈ observed (callback entries st) <->
  x ∈ observed st /\
  ~ exists e, e ∈ entries /\ target e = x /\ isIntersecting e = true.
Proof.
  revert st. induction entries as [|e entries IH]; intros st.
  - simpl. split; [| by intros [H _]]. intros H. split; [done |].
    intros (e & He & _). by apply elem_of_nil in He.
  - change (callback (e :: entries) st) with (callback entries (onEntry st e)).
    rewrite IH. unfold onEntry. split.
    + intros [H Hno]. split.
      * destruct (isIntersecting e); simpl in H; set_solver.
      * intros (e' & He' & Ht & Hi). apply elem_of_cons in He' as [->|He'].
        -- rewrite Hi in H. simpl in H. set_solver.
        -- apply Hno. by exists e'.
    + intros [H Hno]. split.
      * destruct (isIntersecting e) eqn:Hie; simpl; [| done].
        apply elem_of_difference. split; [done |].
        intros Hx%elem_of_singleton. apply Hno. exists e.
        split; [apply list_elem_of_here | done].
      * intros (e' & He' & Ht & Hi). apply Hno. exists e'.
        split; [by apply list_elem_of_further | done].
Qed.

(** X17. One notification of the observer: an element carries [fade-in]
    afterwards exactly when it did before or it was being observed and the
    batch holds a record for it that is intersecting; it is still observed
    afterwards exactly when it was and the batch holds no intersecting
    record for it. So a record that is not intersecting neither reveals an
    element nor stops the watch on it. *)
Theorem notify_reveals (entries : list entry) (st : animator) (x : nat) :
  (x ∈ fadeIn (notify entries st) <->
   x ∈ fadeIn st \/
   (x ∈ observed st /\
    exists e, e ∈ entries /\ target e = x /\ isIntersecting e = true)) /\
  (x ∈ observed (notify entries st) <->
   x ∈ observed st /\
   ~ exists e, e ∈ entries /\ target e = x /\ isIntersecting e = true).
Proof.
  unfold notify. rewrite callback_fadeIn, callback_observed. split.
  - split.
    + intros [H|(e & He & <- & Hi)]; [by left |].
      apply list_elem_of_filter in He as [Ho He]. right. split; [done |].
      by exists e.
    + intros [H|(Ho & e & He & <- & Hi)]; [by left |].
      right. exists e. split; [| done]. by apply list_elem_of_filter.
  - split.
    + intros [Ho Hno]. split; [done |].
      intros (e & He & <- & Hi). apply Hno. exists e.
      split; [| done]. by apply list_elem_of_filter.
    + intros [Ho Hno]. split; [done |].
      intros (e & He & <- & Hi). apply Hno. exists e.
      apply list_elem_of_filter in He as [_ He]. done.
Qed.

Lemma notify_nothing_observed entries st :
  observed st = ∅ -> notify entries st = st.
Proof.
  intros H. unfold notify. rewrite H.
  replace (filter (fun e => target e ∈ (∅ : gset nat)) entries) with (@nil entry);
    [done |].
  induction entries as [|e entries IH]; [done |].
  rewrite filter_cons. destruct (decide (target e ∈ (∅ : gset nat))); [| done].
  set_solver.
Qed.

(** X18. With the reduced-motion preference set, [initAnimations] observes
    nothing, and whatever records the platform could come up with, no
    element ever gets the class [fade-in] that did not carry it from the
    start. *)
Theorem reduced_motion_inert
    (elementsToAnimate : list nat) (classes : gset nat)
    (batches : list (list entry)) :
  notifyAll batches (initAnimations true elementsToAnimate classes)
    = {| observed := ∅; fadeIn := classes |}.
Proof.
  simpl. induction batches as [|b batches IH]; [done |].
  simpl. by rewrite notify_nothing_observed.
Qed.

Lemma onEntry_invariant (E classes : gset nat) st e :
  target e ∈ E ->
  observed st ⊆ E -> fadeIn st = classes ∪ (E ∖ observed st) ->
  observed (onEntry st e) ⊆ observed st /\
  fadeIn (onEntry st e) = classes ∪ (E ∖ observed (onEntry st e)).
Proof.
  intros Ht Hsub Hfade. unfold onEntry.
  destruct (isIntersecting e); simpl; [| done].
  split; [set_solver |]. rewrite Hfade. apply set_eq. intros x.
  destruct (decide (x = target e)) as [->|Hne]; set_solver.
Qed.

Lemma callback_invariant (E classes : gset nat) entries st :
  Forall (fun e => target e ∈ E) entries ->
  observed st ⊆ E -> fadeIn st = classes ∪ (E ∖ observed st) ->
  observed (callback entries st) ⊆ observed st /\
  fadeIn (callback entries st)
    = classes ∪ (E ∖ observed (callback entries st)).
Proof.
  intros Hall. revert st.
  induction Hall as [|e entries He _ IH]; intros st Hsub Hfade; [done |].
  change (callback (e :: entries) st) with (callback entries (onEntry st e)).
  destruct (onEntry_invariant E classes st e He Hsub Hfade) as [Hs Hf].
  destruct (IH (onEntry st e)) as [Hs' Hf']; [set_solver | done |].
  split; [set_solver | done].
Qed.

Lemma notify_invariant (E classes : gset nat) entries st :
  observed st ⊆ E -> fadeIn st = classes ∪ (E ∖ observed st) ->
  observed (notify entries st) ⊆ observed st /\
  fadeIn (notify entries st) = classes ∪ (E ∖ observed (notify entries st)).
Proof.
  intros Hsub Hfade. apply callback_invariant; [| done | done].
  apply Forall_forall. intros e [Ho _]%list_elem_of_filter. set_solver.
Qed.

(** X19. Reveal is one-shot and permanent. Without the reduced-motion
    preference, after any notifications the observer still watches only
    elements it was given, and the elements carrying [fade-in] are exactly
    those that carried it from the start together with the given elements
    that are no longer watched. Further notifications only shrink the
    watched set, so a revealed element stays revealed. *)
Theorem reveal_once
    (elementsToAnimate : list nat) (classes : gset nat)
    (batches more : list (list entry)) :
  let st := notifyAll batches (initAnimations false elementsToAnimate classes) in
  observed st ⊆ list_to_set elementsToAnimate /\
  fadeIn st = classes ∪ (list_to_set elementsToAnimate ∖ observed st) /\
  observed (notifyAll more st) ⊆ observed st /\
  fadeIn st ⊆ fadeIn (notifyAll more st).
Proof.
  cbv zeta. set (E := list_to_set elementsToAnimate : gset nat).
  assert (Hrun : forall bs st,
    observed st ⊆ E -> fadeIn st = classes ∪ (E ∖ observed st) ->
    observed (notifyAll bs st) ⊆ observed st /\
    fadeIn (notifyAll bs st) = classes ∪ (E ∖ observed (notifyAll bs st))).
  { induction bs as [|b bs IH]; intros st Hsub Hfade; [done |].
    change (notifyAll (b :: bs) st) with (notifyAll bs (notify b st)).
    destruct (notify_invariant E classes b st Hsub Hfade) as [Hs Hf].
    destruct (IH (notify b st)) as [Hs' Hf']; [set_solver | done |].
    split; [set_solver | done]. }
  assert (Hinit : observed (initAnimations false elementsToAnimate classes) ⊆ E
                  /\ fadeIn (initAnimations false elementsToAnimate classes)
                     = classes ∪ (E ∖ observed
                         (initAnimations false elementsToAnimate classes))).
  { simpl. split; [done |]. fold E. set_solver. }
  destruct Hinit as [Hi1 Hi2].
  destruct (Hrun batches _ Hi1 Hi2) as [Hs Hf].
  assert (Hsub : observed
    (notifyAll batches (initAnimations false elementsToAnimate classes)) ⊆ E)
    by set_solver.
  destruct (Hrun more _ Hsub Hf) as [Hs' Hf'].
  split; [done |]. split; [done |]. split; [done |].
  rewrite Hf, Hf'. set_solver.
Qed.

End AnimationsCoverage.

Section DebounceCoverage.
Import Debounce.
Context {A : Type}.

Lemma run_app (es1 es2 : list (@event A)) st :
  run (es1 ++ es2) st = run es2 (run es1 st).
Proof. unfold run. apply fold_left_app. Qed.

Lemma run_calls (cs : list A) (c : A) st :
  run (Call <$> cs ++ [c]) st
    = {| timeout := Some c; invoked := invoked st |}.
Proof.
  rewrite fmap_app, run_app. simpl. unfold executedFunction. f_equal.
  generalize st. induction cs as [|a cs IH]; intros st0; [done |].
  simpl. by rewrite IH.
Qed.

Lemma invoked_sublist (es : list (@event A)) st :
  invoked (run es st)
    `sublist_of` invoked st ++ option_list (timeout st) ++ callsOf es.
Proof.
  revert st. induction es as [|e es IH]; intros st.
  - simpl. apply sublist_inserts_r. done.
  - change (run (e :: es) st) with (run es (step e st)).
    etrans; [apply IH |]. destruct e as [a|]; simpl.
    + apply sublist_app; [done |].
      change (a :: callsOf es) with ([a] ++ callsOf es).
      apply sublist_inserts_l.
      change (a :: callsOf es) with ([a] ++ callsOf es). done.
    + unfold later. destruct (timeout st) as [a|] eqn:E; simpl.
      * by rewrite <- app_assoc.
      * by rewrite E.
Qed.

(** X20. The debounced function collapses a burst: any number of calls
    followed by the firing of the timer invokes the wrapped function once,
    with the arguments of the last call, and leaves no timer pending. Over
    any history of calls and firings the wrapped function is invoked only
    with arguments of calls made, in the order of the calls and at most
    once per call, and never by a call itself. *)
Theorem debounce_collapses :
  (forall (cs : list A) (c : A) (st : debounced),
     run ((Call <$> cs ++ [c]) ++ [Fire]) st
       = {| timeout := None; invoked := invoked st ++ [c] |}) /\
  (forall es : list (@event A),
     invoked (run es debounce) `sublist_of` callsOf es) /\
  (forall (c : A) (st : debounced),
     invoked (step (Call c) st) = invoked st).
Proof.
  split; [| split].
  - intros cs c st. by rewrite run_app, run_calls.
  - intros es. apply (invoked_sublist es debounce).
  - done.
Qed.

End DebounceCoverage.

Section AddressCoverage.
Import Str RegExp Spec.

Lemma plain_no_at (l : jsstring) :
  Forall plainChar l -> filter (fun c => c = 64) l = [].
Proof.
  induction 1 as [|c l [_ Hc] _ IH]; [done |].
  rewrite filter_cons. by destruct (decide (c = 64)).
Qed.

Lemma plain_no_whitespace (l : jsstring) :
  Forall plainChar l -> Forall (fun c => is_whitespace c = false) l.
Proof. intros H. eapply Forall_impl; [exact H |]. by intros c [Hc _]. Qed.

(** X21. What the email pattern never lets through: a string it accepts
    holds exactly one "@", no whitespace character at all, and at least
    five characters, the "@" not first and a "." somewhere after it that is
    neither next to the "@" nor last. *)
Theorem accepted_address (s : jsstring) :
  RegExp.test emailRegex s = true ->
  length (filter (fun c => c = 64) s) = 1%nat /\
  Forall (fun c => is_whitespace c = false) s /\
  (5 <= length s)%nat /\
  exists before between after,
    s = before ++ [64] ++ between ++ [46] ++ after /\
    before <> [] /\ between <> [] /\ after <> [].
Proof.
  intros (l & d & tl & -> & Hl & Hd & Ht & Pl & Pd & Pt)%emailRegex_shape.
  split; [| split; [| split]].
  - rewrite !filter_app.
    by rewrite (plain_no_at l), (plain_no_at d), (plain_no_at tl).
  - repeat (apply Forall_app; split); try by apply plain_no_whitespace.
    + by repeat constructor.
    + by repeat constructor.
  - rewrite !length_app. simpl.
    destruct l, d, tl; simpl; try done; lia.
  - by exists l, d, tl.
Qed.

(** The address "a@b.c", the shortest kind there is. *)
Lemma accepted_address_witness :
  length (filter (fun c => c = 64) (js "a@b.c")) = 1%nat.
Proof. apply (accepted_address (js "a@b.c")). by vm_compute. Defined.

End AddressCoverage.
